(** * Alarm clock and MLFQS accounting of the Pintos timer (devices/timer.c)

    A shallow embedding of the timer module of the 7035-OS kernel: the
    17.14 fixed-point macros of threads/fixed-point.h, the sleep list kept by
    [timer_sleep], and the work done by [timer_interrupt] on every tick.

    Machine integers are values of [Z]; every C operation that can leave the
    range of its type is followed by the wrap-around of that type. *)

From Stdlib Require Import ZArith List Bool Lia Permutation.
Import ListNotations.
Open Scope Z_scope.

(** ** Machine integers *)

Module MachineInt.

(** Two's complement reduction of [z] to [w] bits. *)
Definition wrap (w : Z) (z : Z) : Z :=
  (z + 2 ^ (w - 1)) mod 2 ^ w - 2 ^ (w - 1).

Definition wrap32 : Z -> Z := wrap 32.
Definition wrap64 : Z -> Z := wrap 64.

Definition INT32_MIN : Z := - 2 ^ 31.
Definition INT32_MAX : Z := 2 ^ 31 - 1.
Definition INT64_MIN : Z := - 2 ^ 63.
Definition INT64_MAX : Z := 2 ^ 63 - 1.

Definition in_int32 (z : Z) : Prop := INT32_MIN <= z <= INT32_MAX.
Definition in_int64 (z : Z) : Prop := INT64_MIN <= z <= INT64_MAX.

End MachineInt.
Import MachineInt.

(** ** threads/fixed-point.h

    The macros are untyped; they are embedded at the type they are used at
    in timer.c, [int32_t].  [/] is C division, which truncates: [Z.quot]. *)

Module FixedPoint.

Definition FIXED_POINT_FACTOR : Z := 16384.

Definition convert_int_to_fixed_point (n : Z) : Z :=
  wrap32 (n * FIXED_POINT_FACTOR).

Definition convert_fixed_point_to_int_round_towards_zero (x : Z) : Z :=
  Z.quot x FIXED_POINT_FACTOR.

Definition convert_fixed_point_to_int_round_to_nearest (x : Z) : Z :=
  if 0 <=? x
  then Z.quot (wrap32 (x + Z.quot FIXED_POINT_FACTOR 2)) FIXED_POINT_FACTOR
  else Z.quot (wrap32 (x - Z.quot FIXED_POINT_FACTOR 2)) FIXED_POINT_FACTOR.

Definition add_fixed_point_numbers (x y : Z) : Z := wrap32 (x + y).

Definition subtract_fixed_point_numbers (x y : Z) : Z := wrap32 (x - y).

Definition add_int_to_fixed_point_number (x n : Z) : Z :=
  wrap32 (x + convert_int_to_fixed_point n).

Definition subtract_int_from_fixed_point_number (x n : Z) : Z :=
  wrap32 (x - convert_int_to_fixed_point n).

(** The product is formed in 64 bits, where two 32-bit factors cannot
    overflow, and cast back to [int32_t]. *)
Definition multiply_fixed_point_numbers (x y : Z) : Z :=
  wrap32 (Z.quot (x * y) FIXED_POINT_FACTOR).

(** The quotient value of [divide_fixed_point_numbers] for a divisor that
    is not zero. *)
Definition fixed_point_quotient (x y : Z) : Z :=
  wrap32 (Z.quot (x * FIXED_POINT_FACTOR) y).

(** Division by zero traps: there is no result. *)
Definition divide_fixed_point_numbers (x y : Z) : option Z :=
  if y =? 0 then None else Some (fixed_point_quotient x y).

Definition multiply_fixed_point_number_by_int (x n : Z) : Z :=
  wrap32 (x * n).

(** Only used with a constant divisor that is not zero. *)
Definition divide_fixed_point_number_by_int (x n : Z) : Z :=
  Z.quot x n.

End FixedPoint.
Import FixedPoint.

(** ** Kernel state

    A [struct thread *] is represented by the [tid] of the thread it points
    to; the thread structures themselves live in [all_list]. *)

Inductive thread_status : Type :=
| THREAD_RUNNING
| THREAD_READY
| THREAD_BLOCKED
| THREAD_DYING.

Inductive intr_level : Type :=
| INTR_OFF
| INTR_ON.

Definition thread_status_eqb (a b : thread_status) : bool :=
  match a, b with
  | THREAD_RUNNING, THREAD_RUNNING
  | THREAD_READY, THREAD_READY
  | THREAD_BLOCKED, THREAD_BLOCKED
  | THREAD_DYING, THREAD_DYING => true
  | _, _ => false
  end.

Definition intr_level_eqb (a b : intr_level) : bool :=
  match a, b with
  | INTR_OFF, INTR_OFF | INTR_ON, INTR_ON => true
  | _, _ => false
  end.

Definition PRI_MIN : Z := 0.
Definition PRI_DEFAULT : Z := 31.
Definition PRI_MAX : Z := 63.

(** The members of [struct thread] that timer.c reads or writes.
    [old_level] is not a member: it is the local variable of that name in the
    function the thread is suspended in ([timer_sleep], [thread_yield]),
    which stays on the thread's kernel stack until the thread runs again. *)
Record thread : Type := mk_thread {
  tid : Z;
  status : thread_status;
  priority : Z;
  nice_value : Z;
  recent_cpu : Z;
  old_level : intr_level
}.

Definition set_status (s : thread_status) (t : thread) : thread :=
  mk_thread (tid t) s (priority t) (nice_value t) (recent_cpu t) (old_level t).

Definition set_priority (p : Z) (t : thread) : thread :=
  mk_thread (tid t) (status t) p (nice_value t) (recent_cpu t) (old_level t).

Definition set_recent_cpu (r : Z) (t : thread) : thread :=
  mk_thread (tid t) (status t) (priority t) (nice_value t) r (old_level t).

Definition set_old_level (l : intr_level) (t : thread) : thread :=
  mk_thread (tid t) (status t) (priority t) (nice_value t) (recent_cpu t) l.

(** [struct sleeping_thread]; the list element [next_thread] is the position
    of the record in [sleeping_threads]. *)
Record sleeping_thread : Type := mk_sleeping_thread {
  current_thread : Z;
  ticks_till_release : Z
}.

(** The global variables of timer.c and the scheduler state it reaches
    through thread.h. *)
Record kernel : Type := mk_kernel {
  ticks : Z;
  sleeping_threads : list sleeping_thread;
  all_list : list thread;
  ready_list : list Z;
  LOAD_AVG : Z;
  running_thread : Z;
  idle_thread : Z;
  level : intr_level;
  thread_mlfqs : bool
}.

Definition set_ticks (x : Z) (st : kernel) : kernel :=
  mk_kernel x (sleeping_threads st) (all_list st) (ready_list st) (LOAD_AVG st)
    (running_thread st) (idle_thread st) (level st) (thread_mlfqs st).

Definition set_sleeping_threads (x : list sleeping_thread) (st : kernel) : kernel :=
  mk_kernel (ticks st) x (all_list st) (ready_list st) (LOAD_AVG st)
    (running_thread st) (idle_thread st) (level st) (thread_mlfqs st).

Definition set_all_list (x : list thread) (st : kernel) : kernel :=
  mk_kernel (ticks st) (sleeping_threads st) x (ready_list st) (LOAD_AVG st)
    (running_thread st) (idle_thread st) (level st) (thread_mlfqs st).

Definition set_ready_list (x : list Z) (st : kernel) : kernel :=
  mk_kernel (ticks st) (sleeping_threads st) (all_list st) x (LOAD_AVG st)
    (running_thread st) (idle_thread st) (level st) (thread_mlfqs st).

Definition set_LOAD_AVG (x : Z) (st : kernel) : kernel :=
  mk_kernel (ticks st) (sleeping_threads st) (all_list st) (ready_list st) x
    (running_thread st) (idle_thread st) (level st) (thread_mlfqs st).

Definition set_running_thread (x : Z) (st : kernel) : kernel :=
  mk_kernel (ticks st) (sleeping_threads st) (all_list st) (ready_list st)
    (LOAD_AVG st) x (idle_thread st) (level st) (thread_mlfqs st).

(** Modelled from the spec: threads/interrupt.c is missing.  The
    interrupt-level gate: "disable(), enable(), get_level()". *)
Definition intr_set_level (x : intr_level) (st : kernel) : kernel :=
  mk_kernel (ticks st) (sleeping_threads st) (all_list st) (ready_list st)
    (LOAD_AVG st) (running_thread st) (idle_thread st) x (thread_mlfqs st).

Definition intr_get_level (st : kernel) : intr_level := level st.

(** [intr_disable ()] also returns the previous level; callers read it with
    [intr_get_level] first. *)
Definition intr_disable (st : kernel) : kernel := intr_set_level INTR_OFF st.

(** Modelled from the spec: threads/thread.c is missing.  The running
    thread, the idle thread and the set of all threads of the spec's global
    state, as timer.c reads them. *)
Definition thread_current (st : kernel) : Z := running_thread st.
Definition get_idle_thread (st : kernel) : Z := idle_thread st.
Definition get_all_list (st : kernel) : list thread := all_list st.

(** ** Failure: a failed ASSERT or a division trap halts the kernel *)

Definition bind {A B : Type} (m : option A) (f : A -> option B) : option B :=
  match m with
  | Some a => f a
  | None => None
  end.

Notation "x <- m ;; k" := (bind m (fun x => k))
  (at level 61, m at next level, right associativity).

Definition ASSERT (b : bool) : option unit := if b then Some tt else None.

Fixpoint mapM {A B : Type} (f : A -> option B) (l : list A) : option (list B) :=
  match l with
  | [] => Some []
  | a :: l' => b <- f a ;; bs <- mapM f l' ;; Some (b :: bs)
  end.

(** ** Thread structures *)

Definition find_thread (t : Z) (l : list thread) : option thread :=
  find (fun x => tid x =? t) l.

(** Assignment through a thread pointer: [t->member = ...]. *)
Definition update_thread (t : Z) (f : thread -> thread) (l : list thread)
  : list thread :=
  map (fun x => if tid x =? t then f x else x) l.

Definition status_of (st : kernel) (t : Z) : option thread_status :=
  option_map status (find_thread t (all_list st)).

Definition priority_of (st : kernel) (t : Z) : Z :=
  match find_thread t (all_list st) with
  | Some x => priority x
  | None => PRI_MIN
  end.

Definition has_status (st : kernel) (t : Z) (s : thread_status) : bool :=
  match status_of st t with
  | Some s' => thread_status_eqb s' s
  | None => false
  end.

(** ** lib/kernel/list.c *)

(** Modelled from the spec: lib/kernel/list.c is missing.  "Ordered insert
    using a caller-supplied comparator": the element goes in front of the
    first element it is less than, hence behind the elements it ties with
    ("among records with identical wake_tick, in insertion order"). *)
Fixpoint list_insert_ordered {A : Type} (less : A -> A -> bool) (elem : A)
  (l : list A) : list A :=
  match l with
  | [] => [elem]
  | e :: l' =>
      if less elem e then elem :: l else e :: list_insert_ordered less elem l'
  end.

(** ** threads/thread.c *)

(** Modelled from the spec: threads/thread.c is missing.  The ready queue is
    "ordered by effective_priority descending (ties by insertion order)". *)
Definition priority_more (st : kernel) (a b : Z) : bool :=
  priority_of st b <? priority_of st a.

(** Modelled from the spec: threads/thread.c is missing.  "Scheduler
    selection.  Pop the front of ready_queue.  If empty, pick idle_thread.
    Invoke the context-switch primitive."  The thread switched to becomes the
    RUNNING one and continues the function it was suspended in, which ends
    with [intr_set_level (old_level)]. *)
Definition schedule (st : kernel) : option kernel :=
  let next := hd (idle_thread st) (ready_list st) in
  t <- find_thread next (all_list st) ;;
  let st := set_ready_list (tl (ready_list st)) st in
  let st := set_running_thread next st in
  let st := set_all_list
              (update_thread next (set_status THREAD_RUNNING) (all_list st)) st in
  Some (intr_set_level (old_level t) st).

(** Modelled from the spec: threads/thread.c is missing.  "block():
    precondition status == RUNNING and interrupts disabled.  Sets status to
    BLOCKED and invokes the scheduler"; a violated precondition is a fatal
    assertion. *)
Definition thread_block (st : kernel) : option kernel :=
  _ <- ASSERT (intr_level_eqb (intr_get_level st) INTR_OFF) ;;
  _ <- ASSERT (has_status st (thread_current st) THREAD_RUNNING) ;;
  schedule (set_all_list
              (update_thread (thread_current st) (set_status THREAD_BLOCKED)
                 (all_list st)) st).

(** Modelled from the spec: threads/thread.c is missing.  "unblock(t):
    precondition t.status == BLOCKED.  Sets READY and inserts into
    ready_queue in priority order.  Does NOT preempt." *)
Definition thread_unblock (t : Z) (st : kernel) : option kernel :=
  _ <- ASSERT (has_status st t THREAD_BLOCKED) ;;
  let st := set_all_list
              (update_thread t (set_status THREAD_READY) (all_list st)) st in
  Some (set_ready_list
          (list_insert_ordered (priority_more st) t (ready_list st)) st).

(** Modelled from the spec: threads/thread.c is missing.  "yield(): moves
    current thread to READY, inserts ordered into ready_queue, and
    reschedules", with interrupts disabled and the old level restored when
    the thread runs again. *)
Definition thread_yield (st : kernel) : option kernel :=
  let cur := thread_current st in
  let st := set_all_list
              (update_thread cur (set_old_level (intr_get_level st))
                 (all_list st)) st in
  let st := intr_disable st in
  let st := set_all_list
              (update_thread cur (set_status THREAD_READY) (all_list st)) st in
  let st := set_ready_list
              (list_insert_ordered (priority_more st) cur (ready_list st)) st in
  schedule st.

(** Modelled from the spec: threads/thread.c is missing.  [thread_tick]
    charges the tick to a statistics bucket and may request a yield on
    return from the interrupt; neither is part of [kernel], and the yield
    itself is a later [thread_yield]. *)
Definition thread_tick (st : kernel) : kernel := st.

(** Modelled from the spec: threads/thread.c is missing.  [thread_foreach]
    calls the function on every thread of the all-threads list, in order. *)
Definition thread_foreach {A : Type} (func : thread -> A -> A) (aux : A)
  (st : kernel) : A :=
  fold_left (fun acc t => func t acc) (get_all_list st) aux.

Definition clamp (lo hi x : Z) : Z :=
  if x <? lo then lo else if hi <? x then hi else x.

(** Modelled from the spec: the priority formula of the MLFQS scheduler.
    "priority := PRI_MAX - (recent_cpu / 4) - (nice * 2), then clamp to
    [PRI_MIN, PRI_MAX]", "all arithmetic in 17.14 fixed-point"; the
    fixed-point value is brought back to an integer by rounding toward
    zero. *)
Definition mlfqs_priority (recent_cpu nice : Z) : Z :=
  let fp :=
    subtract_int_from_fixed_point_number
      (subtract_fixed_point_numbers
         (convert_int_to_fixed_point PRI_MAX)
         (divide_fixed_point_number_by_int recent_cpu 4))
      (wrap32 (nice * 2)) in
  clamp PRI_MIN PRI_MAX (convert_fixed_point_to_int_round_towards_zero fp).

(** Modelled from the spec: [calculate_priority] is missing (threads/thread.c).
    timer.c calls it without an argument, so the thread whose recent_cpu and
    nice it reads can only be the one that [thread_current ()] gives, as for
    [thread_get_nice (void)] and [thread_get_recent_cpu (void)] of thread.h:
    it is the formula of the spec on the running thread.  (A running thread
    without a structure in the all-threads list counts as one with
    recent_cpu 0 and nice 0.) *)
Definition calculate_priority (st : kernel) : Z :=
  match find_thread (thread_current st) (get_all_list st) with
  | Some t => mlfqs_priority (recent_cpu t) (nice_value t)
  | None => mlfqs_priority 0 0
  end.

(** ** devices/timer.c *)

(** [timer_ticks]: the tick count, read with interrupts disabled. *)
Definition timer_ticks (st : kernel) : Z * kernel :=
  let old_level := intr_get_level st in
  let st := intr_disable st in
  let t := ticks st in
  (t, intr_set_level old_level st).

Definition order_sleeping_threads (thread_one thread_two : sleeping_thread)
  : bool :=
  ticks_till_release thread_one <? ticks_till_release thread_two.

(** [timer_sleep], up to the point where the caller is switched out.  The
    last statement, [intr_set_level (old_level)], runs when the caller is
    scheduled again: see [schedule].  The call is one step here: the tick
    count is read and the record inserted in the same state. *)
Definition timer_sleep (n : Z) (st : kernel) : option kernel :=
  let '(start, st) := timer_ticks st in
  _ <- ASSERT (intr_level_eqb (intr_get_level st) INTR_ON) ;;
  let temp_sleeping_thread :=
    mk_sleeping_thread (thread_current st) (wrap64 (start + n)) in
  let old_level := intr_get_level st in
  let st := intr_disable st in
  let st := set_all_list
              (update_thread (thread_current st) (set_old_level old_level)
                 (all_list st)) st in
  let st := set_sleeping_threads
              (list_insert_ordered order_sleeping_threads temp_sleeping_thread
                 (sleeping_threads st)) st in
  thread_block st.

Definition check_thread_status1 (st : kernel) (t : thread) (count : Z) : Z :=
  if negb (tid t =? get_idle_thread st)
     && (thread_status_eqb (status t) THREAD_RUNNING
         || thread_status_eqb (status t) THREAD_READY)
  then wrap32 (count + 1)
  else count.

(** Interrupts are disabled around the walk and the old level restored, which
    leaves the state as it was. *)
Definition count_running_or_ready_threads1 (st : kernel) : Z :=
  thread_foreach (check_thread_status1 st) 0 st.

Definition calculate_load_avg1 (st : kernel) : option Z :=
  let fifty_nine_fp := convert_int_to_fixed_point 59 in
  let sixty_fp := convert_int_to_fixed_point 60 in
  part1 <- divide_fixed_point_numbers fifty_nine_fp sixty_fp ;;
  let part1_divided := multiply_fixed_point_numbers part1 (LOAD_AVG st) in
  part2 <- divide_fixed_point_numbers (convert_int_to_fixed_point 1) sixty_fp ;;
  let part2_mul :=
    multiply_fixed_point_number_by_int part2
      (count_running_or_ready_threads1 st) in
  let load_avg_new_fp := add_fixed_point_numbers part1_divided part2_mul in
  Some load_avg_new_fp.

Definition update_load_avg (st : kernel) : option kernel :=
  load_avg_new <- calculate_load_avg1 st ;;
  Some (set_LOAD_AVG load_avg_new st).

(** The body of the loop of [update_recent_cpu_for_all_threads]. *)
Definition update_recent_cpu (load_avg : Z) (temp_thread : thread)
  : option thread :=
  let load_avg_times_two :=
    multiply_fixed_point_numbers load_avg (convert_int_to_fixed_point 2) in
  let denominator :=
    add_fixed_point_numbers load_avg_times_two (convert_int_to_fixed_point 1) in
  ratio <- divide_fixed_point_numbers load_avg_times_two denominator ;;
  let product := multiply_fixed_point_numbers ratio (recent_cpu temp_thread) in
  let addnums :=
    add_int_to_fixed_point_number product (nice_value temp_thread) in
  Some (set_recent_cpu addnums temp_thread).

Definition update_recent_cpu_for_all_threads (st : kernel) : option kernel :=
  l <- mapM (update_recent_cpu (LOAD_AVG st)) (get_all_list st) ;;
  Some (set_all_list l st).

(** The loop of [update_priority_for_all_threads], at the element
    [temp_thread] of the all-threads list: [visited] holds the structures in
    front of it, as the loop has left them, [todo] those from it on.  The
    call [calculate_priority ()] has no argument and sees the list as it is
    at that moment. *)
Fixpoint update_priority_loop (st : kernel) (visited todo : list thread)
  : list thread :=
  match todo with
  | [] => visited
  | temp_thread :: rest =>
      let now := set_all_list (visited ++ todo) st in
      let temp_thread' :=
        if tid temp_thread =? get_idle_thread now then temp_thread
        else set_priority (calculate_priority now) temp_thread in
      update_priority_loop st (visited ++ [temp_thread']) rest
  end.

Definition update_priority_for_all_threads (st : kernel) : kernel :=
  set_all_list (update_priority_loop st [] (get_all_list st)) st.

(** The loop at the end of [timer_interrupt].  [l] is the part of
    [sleeping_threads] from the cursor [temp_elm] on; as every element
    before the cursor has been removed, it is the whole list.  [list_remove]
    unlinks the element under the cursor and leaves its own links in place,
    so [list_next] still leads to its successor. *)
Fixpoint wake_sleeping_threads (l : list sleeping_thread) (st : kernel)
  : option kernel :=
  match l with
  | [] => Some st
  | temp_sleeping_thread :: l' =>
      if ticks_till_release temp_sleeping_thread <=? ticks st then
        let st := set_sleeping_threads l' st in
        st <- thread_unblock (current_thread temp_sleeping_thread) st ;;
        wake_sleeping_threads l' st
      else Some st
  end.

(** ** Executions

    What happens to the kernel state, one atomic change at a time: the
    timer interrupt arrives (only while interrupts are enabled; the handler
    runs with interrupts disabled), the running thread calls [timer_sleep],
    or the running thread yields the processor. *)
Inductive event : Type :=
| Tick
| Sleep (n : Z)
| Yield.

Section Timer.

(** devices/timer.h is missing: TIMER_FREQ is a parameter.  timer.c
    refuses to compile unless 19 <= TIMER_FREQ <= 1000. *)
Variable TIMER_FREQ : Z.

Definition timer_interrupt (st : kernel) : option kernel :=
  let st := set_ticks (wrap64 (ticks st + 1)) st in
  let st := thread_tick st in
  let current_thread := thread_current st in
  let st :=
    if current_thread =? get_idle_thread st then st
    else set_all_list
           (update_thread current_thread
              (fun t => set_recent_cpu
                          (add_int_to_fixed_point_number (recent_cpu t) 1) t)
              (all_list st)) st in
  st <- (if Z.rem (ticks st) TIMER_FREQ =? 0
         then st <- update_load_avg st ;; update_recent_cpu_for_all_threads st
         else Some st) ;;
  let st :=
    if Z.rem (ticks st) 4 =? 0 then update_priority_for_all_threads st
    else st in
  wake_sleeping_threads (sleeping_threads st) st.

Definition step (ev : event) (st : kernel) : option kernel :=
  match ev with
  | Tick =>
      _ <- ASSERT (intr_level_eqb (intr_get_level st) INTR_ON) ;;
      st <- timer_interrupt (intr_disable st) ;;
      Some (intr_set_level INTR_ON st)
  | Sleep n => timer_sleep n st
  | Yield => thread_yield st
  end.

(** The states visited by a sequence of events, one per event. *)
Fixpoint trace (evs : list event) (st : kernel) : option (list kernel) :=
  match evs with
  | [] => Some []
  | ev :: evs' =>
      st' <- step ev st ;;
      sts <- trace evs' st' ;;
      Some (st' :: sts)
  end.

End Timer.

(** ** Notions used in the statements *)

(** The part of [timer_interrupt] in front of the loop over the sleep list:
    the tick and the three MLFQS duties. *)
Definition timer_interrupt_accounting (TIMER_FREQ : Z) (st : kernel)
  : option kernel :=
  let st := set_ticks (wrap64 (ticks st + 1)) st in
  let st := thread_tick st in
  let current_thread := thread_current st in
  let st :=
    if current_thread =? get_idle_thread st then st
    else set_all_list
           (update_thread current_thread
              (fun t => set_recent_cpu
                          (add_int_to_fixed_point_number (recent_cpu t) 1) t)
              (all_list st)) st in
  st <- (if Z.rem (ticks st) TIMER_FREQ =? 0
         then st <- update_load_avg st ;; update_recent_cpu_for_all_threads st
         else Some st) ;;
  Some (if Z.rem (ticks st) 4 =? 0 then update_priority_for_all_threads st
        else st).

(** Ascending wake ticks. *)
Inductive wake_sorted : list sleeping_thread -> Prop :=
| wake_sorted_nil : wake_sorted []
| wake_sorted_cons r l :
    Forall (fun e => ticks_till_release r <= ticks_till_release e) l ->
    wake_sorted l ->
    wake_sorted (r :: l).

(** The record at the front of the list, if any, is not yet due. *)
Definition head_in_future (now : Z) (l : list sleeping_thread) : Prop :=
  match l with
  | [] => True
  | r :: _ => now < ticks_till_release r
  end.

(** Two versions of a thread structure that differ at most in [status]. *)
Definition same_but_status (t t' : thread) : Prop :=
  tid t' = tid t /\ priority t' = priority t /\ nice_value t' = nice_value t
  /\ recent_cpu t' = recent_cpu t /\ old_level t' = old_level t.

(** Two versions that differ at most in [recent_cpu] and [priority]. *)
Definition same_scheduling (t t' : thread) : Prop :=
  tid t' = tid t /\ status t' = status t /\ nice_value t' = nice_value t
  /\ old_level t' = old_level t.

(** The number of threads that are RUNNING or READY, the idle thread left
    out. *)
Definition ready_threads (st : kernel) : Z :=
  Z.of_nat
    (length
       (filter
          (fun t =>
             negb (tid t =? idle_thread st)
             && (thread_status_eqb (status t) THREAD_RUNNING
                 || thread_status_eqb (status t) THREAD_READY))
          (all_list st))).

(** The globals that neither the scheduler calls nor the loop over the sleep
    list touch. *)
Definition same_globals (st st' : kernel) : Prop :=
  ticks st' = ticks st /\ LOAD_AVG st' = LOAD_AVG st
  /\ running_thread st' = running_thread st
  /\ idle_thread st' = idle_thread st /\ level st' = level st
  /\ thread_mlfqs st' = thread_mlfqs st.

(** The [old_level] kept on the stack of thread [t]. *)
Definition old_level_of (st : kernel) (t : Z) : option intr_level :=
  option_map old_level (find_thread t (all_list st)).

(** The record that [timer_sleep (n)] puts into the sleep list of [st]. *)
Definition sleep_record (n : Z) (st : kernel) : sleeping_thread :=
  mk_sleeping_thread (thread_current st) (wrap64 (ticks st + n)).

(** [recent_cpu] of thread [t] after the per-tick charge of the handler
    that interrupts [st]: one, in fixed point, more for the running thread
    unless that is the idle thread. *)
Definition charged_recent_cpu (st : kernel) (t : thread) : Z :=
  if (tid t =? thread_current st)
     && negb (thread_current st =? get_idle_thread st)
  then add_int_to_fixed_point_number (recent_cpu t) 1
  else recent_cpu t.

(** (2 * load_avg) / (2 * load_avg + 1) * recent_cpu + nice, in fixed point. *)
Definition decayed_recent_cpu (load_avg r nice : Z) : Z :=
  let twice :=
    multiply_fixed_point_numbers load_avg (convert_int_to_fixed_point 2) in
  add_int_to_fixed_point_number
    (multiply_fixed_point_numbers
       (fixed_point_quotient twice
          (add_fixed_point_numbers twice (convert_int_to_fixed_point 1)))
       r)
    nice.

(** (59/60) * load_avg + (1/60) * ready, in fixed point. *)
Definition next_load_avg (load_avg ready : Z) : Z :=
  add_fixed_point_numbers
    (multiply_fixed_point_numbers
       (fixed_point_quotient (convert_int_to_fixed_point 59)
          (convert_int_to_fixed_point 60))
       load_avg)
    (multiply_fixed_point_number_by_int
       (fixed_point_quotient (convert_int_to_fixed_point 1)
          (convert_int_to_fixed_point 60))
       ready).

(** What the accounting part of the handler that interrupts [st] makes of
    one thread structure, [load_avg] being the load average it leaves and
    [pri] what [calculate_priority ()] returns in it. *)
Definition accounted_thread (TIMER_FREQ : Z) (st : kernel)
  (load_avg pri : Z) (t : thread) : thread :=
  let now := wrap64 (ticks st + 1) in
  let t1 := set_recent_cpu (charged_recent_cpu st t) t in
  let t2 :=
    if Z.rem now TIMER_FREQ =? 0
    then set_recent_cpu
           (decayed_recent_cpu load_avg (recent_cpu t1) (nice_value t1)) t1
    else t1 in
  if Z.rem now 4 =? 0
  then if tid t2 =? idle_thread st then t2
       else set_priority pri t2
  else t2.

(** The division of [update_recent_cpu_for_all_threads] does not trap in the
    handler that interrupts [st]: if the handler gets there at all (the new
    tick count is a multiple of TIMER_FREQ and there is a thread to update),
    2 * load_avg + 1 is not zero for the load average just computed. *)
Definition no_division_trap (TIMER_FREQ : Z) (st : kernel) : Prop :=
  Z.rem (wrap64 (ticks st + 1)) TIMER_FREQ = 0 ->
  all_list st <> [] ->
  add_fixed_point_numbers
    (multiply_fixed_point_numbers
       (next_load_avg (LOAD_AVG st) (count_running_or_ready_threads1 st))
       (convert_int_to_fixed_point 2))
    (convert_int_to_fixed_point 1) <> 0.

(** Invariant 5 of the data model: every record of the sleep list belongs
    to a BLOCKED thread, and no thread sleeps twice. *)
Definition sleepers_blocked (st : kernel) : Prop :=
  NoDup (map current_thread (sleeping_threads st))
  /\ Forall (fun r => status_of st (current_thread r) = Some THREAD_BLOCKED)
       (sleeping_threads st).

(** The states in which the timer interrupt handler runs to its end. *)
Definition interrupt_ready (TIMER_FREQ : Z) (st : kernel) : Prop :=
  no_division_trap TIMER_FREQ st /\ sleepers_blocked st.

(** The states in which the running thread can call [timer_sleep]:
    interrupts are on, the caller is RUNNING, and the thread that the
    scheduler will switch to exists. *)
Definition may_sleep (st : kernel) : Prop :=
  level st = INTR_ON
  /\ status_of st (thread_current st) = Some THREAD_RUNNING
  /\ find_thread (hd (idle_thread st) (ready_list st)) (all_list st) <> None.

(** The scheduler invariants of the data model that the timer relies on:
    the running thread is RUNNING, the ready queue holds READY threads, each
    once, the sleep list holds BLOCKED threads, each once, and the idle
    thread does not sleep. *)
Definition scheduler_wf (st : kernel) : Prop :=
  status_of st (thread_current st) = Some THREAD_RUNNING
  /\ NoDup (ready_list st)
  /\ Forall (fun t => status_of st t = Some THREAD_READY) (ready_list st)
  /\ sleepers_blocked st
  /\ ~ In (idle_thread st) (map current_thread (sleeping_threads st)).

(** The idle thread never calls [timer_sleep]. *)
Definition not_idle_sleep (ev : event) (st : kernel) : Prop :=
  match ev with
  | Sleep _ => thread_current st <> idle_thread st
  | _ => True
  end.

(** ** Example states *)

(** A main thread (1) running, a second thread (2) ready and the idle
    thread (0), just after boot. *)
Definition boot_threads : list thread :=
  [ mk_thread 1 THREAD_RUNNING PRI_DEFAULT 0 0 INTR_ON;
    mk_thread 2 THREAD_READY PRI_DEFAULT 0 0 INTR_ON;
    mk_thread 0 THREAD_BLOCKED PRI_MIN 0 0 INTR_ON ].

Definition boot : kernel :=
  mk_kernel 0 [] boot_threads [2] 0 1 0 INTR_ON false.

Definition boot_at (t : Z) : kernel := set_ticks t boot.

(** Thread 1 has called [timer_sleep (2)] at tick 0; thread 2 runs. *)
Definition asleep : kernel :=
  Eval cbv in
    match timer_sleep 2 boot with
    | Some st => st
    | None => boot
    end.

(** [boot] with a load average of one and a running thread that has used
    the processor for two ticks. *)
Definition loaded : kernel :=
  set_LOAD_AVG 16384
    (set_all_list
       (update_thread 1 (set_recent_cpu 32768) boot_threads) (boot_at 99)).


(** ** The rest of devices/timer.c *)

(** [timer_elapsed]: the ticks since [then_], a value once returned by
    [timer_ticks]; the difference is formed in 64 bits. *)
Definition timer_elapsed (then_ : Z) (st : kernel) : Z * kernel :=
  let '(t, st) := timer_ticks st in
  (wrap64 (t - then_), st).

(** The loop of [busy_wait]: [while (loops-- > 0) barrier ();].  [barriers]
    counts the executions of [barrier ()], the only thing the loop does;
    [fuel] bounds the number of tests of the loop condition. *)
Fixpoint busy_wait_loop (fuel : nat) (loops barriers : Z) : option Z :=
  match fuel with
  | O => None
  | S fuel' =>
      if 0 <? loops
      then busy_wait_loop fuel' (wrap64 (loops - 1)) (barriers + 1)
      else Some barriers
  end.

(** [busy_wait]: the number of times [barrier ()] is executed. *)
Definition busy_wait (loops : Z) : option Z :=
  busy_wait_loop (S (Z.to_nat loops)) loops 0.

(** [real_time_delay]: the number of spins of the busy-wait loop.
    [loops_per_tick] is the static variable of that name, an unsigned int
    that the multiplication with the 64-bit [num] promotes to 64 bits.  The
    assertion on [denom] can fail and the division by [denom / 1000] can
    trap. *)
Definition real_time_delay (TIMER_FREQ loops_per_tick num denom : Z)
  : option Z :=
  _ <- ASSERT (Z.rem denom 1000 =? 0) ;;
  _ <- ASSERT (negb (Z.quot denom 1000 =? 0)) ;;
  busy_wait
    (wrap64
       (Z.quot
          (wrap64 (Z.quot (wrap64 (loops_per_tick * num)) 1000 * TIMER_FREQ))
          (Z.quot denom 1000))).

(** [real_time_sleep]: the state it leaves and the number of spins of the
    busy-wait loop (none when the thread sleeps on the sleep list).  The
    division by [denom] can trap. *)
Definition real_time_sleep (TIMER_FREQ loops_per_tick num denom : Z)
  (st : kernel) : option (kernel * Z) :=
  _ <- ASSERT (negb (denom =? 0)) ;;
  let ticks := wrap64 (Z.quot (wrap64 (num * TIMER_FREQ)) denom) in
  _ <- ASSERT (intr_level_eqb (intr_get_level st) INTR_ON) ;;
  if 0 <? ticks
  then st' <- timer_sleep ticks st ;; Some (st', 0)
  else spins <- real_time_delay TIMER_FREQ loops_per_tick num denom ;;
       Some (st, spins).

Definition timer_msleep (TIMER_FREQ loops_per_tick ms : Z) (st : kernel)
  : option (kernel * Z) :=
  real_time_sleep TIMER_FREQ loops_per_tick ms 1000 st.

Definition timer_usleep (TIMER_FREQ loops_per_tick us : Z) (st : kernel)
  : option (kernel * Z) :=
  real_time_sleep TIMER_FREQ loops_per_tick us (1000 * 1000) st.

Definition timer_nsleep (TIMER_FREQ loops_per_tick ns : Z) (st : kernel)
  : option (kernel * Z) :=
  real_time_sleep TIMER_FREQ loops_per_tick ns (1000 * 1000 * 1000) st.

Definition timer_mdelay (TIMER_FREQ loops_per_tick ms : Z) : option Z :=
  real_time_delay TIMER_FREQ loops_per_tick ms 1000.

Definition timer_udelay (TIMER_FREQ loops_per_tick us : Z) : option Z :=
  real_time_delay TIMER_FREQ loops_per_tick us (1000 * 1000).

Definition timer_ndelay (TIMER_FREQ loops_per_tick ns : Z) : option Z :=
  real_time_delay TIMER_FREQ loops_per_tick ns (1000 * 1000 * 1000).

(** The number of timer interrupts in a sequence of events. *)
Fixpoint count_ticks (evs : list event) : Z :=
  match evs with
  | [] => 0
  | Tick :: evs' => 1 + count_ticks evs'
  | _ :: evs' => count_ticks evs'
  end.

(** ** The second fixed-point header

    The header with FRACTION_BITS 15, [typedef int fixed_point].  [<<] on
    an int is a multiplication by a power of two reduced to 32 bits, [>>]
    on a negative int is the arithmetic shift, which rounds toward minus
    infinity: [Z.shiftr]. *)

Module FixedPoint15.

Definition FRACTION_BITS : Z := 15.

Definition convert_int_to_fixed_point (int_value : Z) : Z :=
  wrap32 (Z.shiftl int_value FRACTION_BITS).

Definition convert_fixed_point_to_int_round_towards_zero (x : Z) : Z :=
  Z.shiftr x FRACTION_BITS.

Definition convert_fixed_point_to_int_round_to_nearest (x : Z) : Z :=
  if 0 <=? x
  then Z.shiftr (wrap32 (x + wrap32 (Z.shiftl 1 (FRACTION_BITS - 1))))
         FRACTION_BITS
  else Z.shiftr (wrap32 (x - wrap32 (Z.shiftl 1 (FRACTION_BITS - 1))))
         FRACTION_BITS.

Definition add_fixed_point_numbers (x y : Z) : Z := wrap32 (x + y).

Definition add_int_to_fixed_point_number (x int_value : Z) : Z :=
  wrap32 (x + wrap32 (Z.shiftl int_value FRACTION_BITS)).

Definition subtract_fixed_point_numbers (x y : Z) : Z := wrap32 (x - y).

Definition subtract_int_from_fixed_point_number (x int_value : Z) : Z :=
  wrap32 (x - wrap32 (Z.shiftl int_value FRACTION_BITS)).

(** The product of the two ints, as it is: not shifted back. *)
Definition multiply_fixed_point_numbers (x y : Z) : Z := wrap32 (x * y).

(** The 64-bit product shifted back by FRACTION_BITS. *)
Definition multiply_fixed_point_numbers_by_int (x int_value : Z) : Z :=
  wrap32 (Z.shiftr (x * int_value) FRACTION_BITS).

(** The quotient of the two ints, as it is.  The 32-bit division traps on
    a zero divisor and on INT32_MIN / -1, whose quotient does not fit. *)
Definition divide_fixed_point_numbers (x y : Z) : option Z :=
  if (y =? 0) || ((x =? INT32_MIN) && (y =? -1)) then None
  else Some (Z.quot x y).

Definition divide_integer_by_fixed_point (int_value x : Z) : option Z :=
  if x =? 0 then None
  else Some (wrap32 (Z.quot (Z.shiftl int_value FRACTION_BITS) x)).

End FixedPoint15.

(** ** Lemmas on machine integers *)

Lemma wrap32_id (z : Z) : in_int32 z -> wrap32 z = z.
Proof.
  unfold in_int32, INT32_MIN, INT32_MAX, wrap32, wrap; intros H.
  rewrite Z.mod_small; lia.
Qed.

Lemma wrap64_id (z : Z) : in_int64 z -> wrap64 z = z.
Proof.
  unfold in_int64, INT64_MIN, INT64_MAX, wrap64, wrap; intros H.
  rewrite Z.mod_small; lia.
Qed.

(** ** Fixed-point round trips *)

Lemma round_towards_zero_of_int (n : Z) :
  in_int32 (n * FIXED_POINT_FACTOR) ->
  convert_fixed_point_to_int_round_towards_zero (convert_int_to_fixed_point n) = n.
Proof.
  intros H. unfold convert_fixed_point_to_int_round_towards_zero,
    convert_int_to_fixed_point.
  rewrite wrap32_id by assumption.
  apply Z.quot_mul. unfold FIXED_POINT_FACTOR; lia.
Qed.

Lemma round_to_nearest_of_int (n : Z) :
  in_int32 (n * FIXED_POINT_FACTOR) -> n <> -131072 ->
  convert_fixed_point_to_int_round_to_nearest (convert_int_to_fixed_point n) = n.
Proof.
  intros H Hn.
  unfold convert_fixed_point_to_int_round_to_nearest, convert_int_to_fixed_point.
  rewrite wrap32_id by assumption.
  unfold in_int32, INT32_MIN, INT32_MAX, FIXED_POINT_FACTOR in *.
  change (Z.quot 16384 2) with 8192.
  destruct (Z.leb_spec 0 (n * 16384)) as [Hs | Hs].
  - rewrite wrap32_id by (unfold in_int32, INT32_MIN, INT32_MAX; lia).
    symmetry; apply Z.quot_unique with (r := 8192); lia.
  - rewrite wrap32_id by (unfold in_int32, INT32_MIN, INT32_MAX; lia).
    rewrite <- (Z.opp_involutive (n * 16384 - 8192)).
    rewrite Z.quot_opp_l by lia.
    assert (E : Z.quot (- (n * 16384 - 8192)) 16384 = - n)
      by (symmetry; apply Z.quot_unique with (r := 8192); lia).
    rewrite E. lia.
Qed.

(** ** Failure monad *)

Lemma ASSERT_Some (b : bool) (u : unit) : ASSERT b = Some u -> b = true.
Proof. destruct b; [reflexivity | discriminate]. Qed.

Ltac bind_inv H :=
  match type of H with
  | bind ?m _ = Some _ =>
      let E := fresh "E" in
      destruct m eqn:E; [cbn [bind] in H | discriminate H]
  end.

Ltac assert_inv H :=
  match type of H with
  | bind (ASSERT ?b) _ = Some _ =>
      let E := fresh "E" in
      destruct (ASSERT b) eqn:E; [cbn [bind] in H; apply ASSERT_Some in E
                                 | discriminate H]
  end.

Lemma intr_level_eqb_eq (a b : intr_level) :
  intr_level_eqb a b = true -> a = b.
Proof. destruct a, b; simpl; congruence. Qed.

Lemma thread_status_eqb_eq (a b : thread_status) :
  thread_status_eqb a b = true -> a = b.
Proof. destruct a, b; simpl; congruence. Qed.

Lemma has_status_true (st : kernel) (t : Z) (s : thread_status) :
  has_status st t s = true <-> status_of st t = Some s.
Proof.
  unfold has_status. destruct (status_of st t) as [s'|].
  - split; intros H.
    + apply thread_status_eqb_eq in H. congruence.
    + injection H as ->. destruct s; reflexivity.
  - split; discriminate.
Qed.

(** ** Thread structures *)

Section UpdateThread.

Variable f : thread -> thread.
Hypothesis f_tid : forall x, tid (f x) = tid x.

Lemma find_thread_update_thread_same (t : Z) (l : list thread) :
  find_thread t (update_thread t f l) = option_map f (find_thread t l).
Proof.
  unfold find_thread, update_thread.
  induction l as [|x l IH]; simpl; [reflexivity|].
  destruct (tid x =? t) eqn:E.
  - rewrite f_tid, E. reflexivity.
  - rewrite E. exact IH.
Qed.

Lemma find_thread_update_thread_other (t u : Z) (l : list thread) :
  t <> u -> find_thread t (update_thread u f l) = find_thread t l.
Proof.
  intros Hne. unfold find_thread, update_thread.
  induction l as [|x l IH]; simpl; [reflexivity|].
  destruct (tid x =? u) eqn:E.
  - rewrite f_tid. apply Z.eqb_eq in E.
    destruct (tid x =? t) eqn:E'; [apply Z.eqb_eq in E'; congruence | exact IH].
  - destruct (tid x =? t); [reflexivity | exact IH].
Qed.

End UpdateThread.

Lemma Forall2_update_thread (R : thread -> thread -> Prop) (t : Z)
  (f : thread -> thread) (l : list thread) :
  (forall x, R x x) -> (forall x, R x (f x)) ->
  Forall2 R l (update_thread t f l).
Proof.
  intros Hrefl Hf. unfold update_thread.
  induction l as [|x l IH]; simpl; constructor; [|exact IH].
  destruct (tid x =? t); auto.
Qed.

Lemma Forall2_trans_thread (R : thread -> thread -> Prop) :
  (forall x y z, R x y -> R y z -> R x z) ->
  forall l1 l2 l3, Forall2 R l1 l2 -> Forall2 R l2 l3 -> Forall2 R l1 l3.
Proof.
  intros Htr l1 l2 l3 H12. revert l3.
  induction H12; intros l3 H23; inversion H23; subst; constructor; eauto.
Qed.

Lemma same_but_status_refl (x : thread) : same_but_status x x.
Proof. unfold same_but_status; tauto. Qed.

Lemma same_but_status_set (s : thread_status) (x : thread) :
  same_but_status x (set_status s x).
Proof. unfold same_but_status; simpl; tauto. Qed.

Lemma same_but_status_trans (x y z : thread) :
  same_but_status x y -> same_but_status y z -> same_but_status x z.
Proof. unfold same_but_status; intuition congruence. Qed.

Lemma status_of_set_status (st : kernel) (t u : Z) (s : thread_status) :
  status_of (set_all_list (update_thread u (set_status s) (all_list st)) st) t
  = if t =? u then option_map (fun _ => s) (status_of st t) else status_of st t.
Proof.
  unfold status_of; simpl.
  destruct (Z.eqb_spec t u) as [->|Hne].
  - rewrite find_thread_update_thread_same by reflexivity.
    destruct (find_thread u (all_list st)); reflexivity.
  - rewrite find_thread_update_thread_other by (auto; reflexivity).
    reflexivity.
Qed.

(** ** Ordered insertion *)

Lemma list_insert_ordered_split {A : Type} (less : A -> A -> bool) (elem : A)
  (l : list A) :
  exists before after,
    l = before ++ after
    /\ list_insert_ordered less elem l = before ++ elem :: after
    /\ Forall (fun e => less elem e = false) before
    /\ match after with
       | [] => True
       | e :: _ => less elem e = true
       end.
Proof.
  induction l as [|e l (before & after & Hl & Hins & Hb & Ha)]; simpl.
  - exists [], []. repeat split; constructor.
  - destruct (less elem e) eqn:E.
    + exists [], (e :: l). repeat split; [constructor | exact E].
    + exists (e :: before), after. subst l. rewrite Hins.
      repeat split; [constructor; assumption | exact Ha].
Qed.

Lemma list_insert_ordered_In {A : Type} (less : A -> A -> bool) (elem x : A)
  (l : list A) :
  In x (list_insert_ordered less elem l) <-> x = elem \/ In x l.
Proof.
  destruct (list_insert_ordered_split less elem l)
    as (before & after & -> & -> & _).
  rewrite !in_app_iff. simpl. intuition congruence.
Qed.

Lemma wake_sorted_app_inv (l1 l2 : list sleeping_thread) :
  wake_sorted (l1 ++ l2) -> wake_sorted l2.
Proof.
  induction l1 as [|r l1 IH]; simpl; intros H; [exact H|].
  inversion H; subst. auto.
Qed.

Lemma wake_sorted_tail_future (now : Z) (l : list sleeping_thread) :
  wake_sorted l -> head_in_future now l ->
  Forall (fun r => now < ticks_till_release r) l.
Proof.
  intros Hs Hh. destruct Hs as [|r l Hall Hs]; constructor; simpl in Hh.
  - exact Hh.
  - eapply Forall_impl; [|exact Hall]. simpl. intros; lia.
Qed.

Lemma wake_sorted_insert (r : sleeping_thread) (l : list sleeping_thread) :
  wake_sorted l ->
  wake_sorted (list_insert_ordered order_sleeping_threads r l).
Proof.
  induction 1 as [|e l Hall Hs IH]; simpl.
  - repeat constructor.
  - unfold order_sleeping_threads at 1.
    destruct (Z.ltb_spec (ticks_till_release r) (ticks_till_release e)).
    + constructor; [|constructor; assumption].
      constructor; [lia|].
      eapply Forall_impl; [|exact Hall]. simpl; intros; lia.
    + constructor; [|exact IH].
      apply Forall_forall. intros x Hx.
      apply list_insert_ordered_In in Hx. destruct Hx as [->|Hx]; [lia|].
      rewrite Forall_forall in Hall. auto.
Qed.

(** ** Looking threads up in two versions of the thread list *)

Lemma Forall2_find_thread (R : thread -> thread -> Prop) (t : Z)
  (l l' : list thread) :
  (forall x y, R x y -> tid y = tid x) ->
  Forall2 R l l' ->
  match find_thread t l, find_thread t l' with
  | Some x, Some y => R x y
  | None, None => True
  | _, _ => False
  end.
Proof.
  intros Htid H. unfold find_thread.
  induction H as [|x y l l' Hxy H IH]; simpl; [exact I|].
  rewrite (Htid x y Hxy). destruct (tid x =? t); assumption.
Qed.

Lemma Forall2_status_of (R : thread -> thread -> Prop) (st st' : kernel)
  (t : Z) :
  (forall x y, R x y -> tid y = tid x /\ status y = status x) ->
  Forall2 R (all_list st) (all_list st') ->
  status_of st' t = status_of st t.
Proof.
  intros HR H. unfold status_of.
  pose proof (Forall2_find_thread R t _ _ (fun x y h => proj1 (HR x y h)) H) as F.
  destruct (find_thread t (all_list st)), (find_thread t (all_list st'));
    simpl; try contradiction; [|reflexivity].
  f_equal. apply HR. exact F.
Qed.

Lemma mapM_Forall2 {A B : Type} (f : A -> option B) (R : A -> B -> Prop)
  (l : list A) (l' : list B) :
  (forall x y, f x = Some y -> R x y) ->
  mapM f l = Some l' -> Forall2 R l l'.
Proof.
  intros Hf. revert l'.
  induction l as [|x l IH]; simpl; intros l' H.
  - injection H as <-. constructor.
  - bind_inv H. bind_inv H. injection H as <-. constructor; auto.
Qed.

(** ** The scheduler calls *)

Lemma thread_unblock_Some (t : Z) (st st' : kernel) :
  thread_unblock t st = Some st' ->
  status_of st t = Some THREAD_BLOCKED
  /\ same_globals st st'
  /\ sleeping_threads st' = sleeping_threads st
  /\ all_list st' = update_thread t (set_status THREAD_READY) (all_list st)
  /\ (forall x, In x (ready_list st') <-> x = t \/ In x (ready_list st)).
Proof.
  unfold thread_unblock. intros H. assert_inv H.
  apply has_status_true in E. injection H as <-.
  split; [exact E|]. unfold same_globals. simpl.
  repeat split; try tauto; try apply list_insert_ordered_In.
Qed.

Lemma thread_unblock_status (t u : Z) (st st' : kernel) :
  thread_unblock t st = Some st' ->
  status_of st' u = if u =? t then Some THREAD_READY else status_of st u.
Proof.
  intros H. apply thread_unblock_Some in H.
  destruct H as (Hb & _ & _ & Hall & _).
  pose proof (status_of_set_status st u t THREAD_READY) as E.
  unfold status_of in *. simpl in E. rewrite Hall, E.
  destruct (Z.eqb_spec u t) as [->|]; [|reflexivity].
  destruct (find_thread t (all_list st)); [reflexivity | discriminate].
Qed.

Lemma same_globals_refl (st : kernel) : same_globals st st.
Proof. unfold same_globals; tauto. Qed.

Lemma same_globals_trans (a b c : kernel) :
  same_globals a b -> same_globals b c -> same_globals a c.
Proof. unfold same_globals; intuition congruence. Qed.

(** ** The loop over the sleep list *)

Lemma wake_sleeping_threads_spec (l : list sleeping_thread) :
  forall st st',
    sleeping_threads st = l ->
    wake_sleeping_threads l st = Some st' ->
    exists woken,
      l = woken ++ sleeping_threads st'
      /\ Forall (fun r => ticks_till_release r <= ticks st) woken
      /\ head_in_future (ticks st) (sleeping_threads st')
      /\ same_globals st st'
      /\ Forall2 same_but_status (all_list st) (all_list st')
      /\ (forall r, In r woken ->
            status_of st (current_thread r) = Some THREAD_BLOCKED
            /\ status_of st' (current_thread r) = Some THREAD_READY)
      /\ (forall t, ~ In t (map current_thread woken) ->
            status_of st' t = status_of st t)
      /\ (forall t, In t (ready_list st') <->
            In t (map current_thread woken) \/ In t (ready_list st)).
Proof.
  induction l as [|r l IH]; intros st st' Hl H; simpl in H.
  - injection H as <-. exists []. rewrite Hl. simpl.
    repeat split; auto using same_globals_refl; try tauto.
    clear. induction (all_list st); constructor;
      auto using same_but_status_refl.
  - destruct (Z.leb_spec (ticks_till_release r) (ticks st)) as [Hdue|Hfut].
    + bind_inv H. rename k into st1.
      pose proof (fun u => thread_unblock_status _ u _ _ E) as Hst1.
      apply thread_unblock_Some in E.
      destruct E as (Hblk & Hg1 & Hsl1 & Hall1 & Hrdy1). simpl in *.
      assert (Hticks1 : ticks st1 = ticks st) by apply Hg1.
      destruct (IH st1 st' Hsl1 H)
        as (woken & Hw & Hdue' & Hhd & Hg & Hall & Hwst & Hoth & Hrdy).
      exists (r :: woken). rewrite Hticks1 in *.
      split; [simpl; congruence|].
      split; [constructor; assumption|].
      split; [exact Hhd|].
      split; [eapply same_globals_trans; eassumption|].
      split.
      { eapply Forall2_trans_thread; [exact same_but_status_trans | | exact Hall].
        rewrite Hall1.
        apply Forall2_update_thread;
          auto using same_but_status_refl, same_but_status_set. }
      assert (Hnotin : ~ In (current_thread r) (map current_thread woken)).
      { intros Hin. apply in_map_iff in Hin. destruct Hin as (r' & Heq & Hin).
        destruct (Hwst r' Hin) as [Hb' _]. rewrite Heq, Hst1, Z.eqb_refl in Hb'.
        discriminate. }
      split.
      { intros r' [<-|Hin].
        - split; [exact Hblk|].
          rewrite (Hoth _ Hnotin), Hst1, Z.eqb_refl. reflexivity.
        - destruct (Hwst r' Hin) as [Hb' Hr']. split; [|exact Hr'].
          rewrite Hst1 in Hb'.
          destruct (current_thread r' =? current_thread r);
            [discriminate | exact Hb']. }
      split.
      { intros t Ht. simpl in Ht.
        rewrite Hoth by tauto. rewrite Hst1.
        destruct (Z.eqb_spec t (current_thread r)); [subst; tauto | reflexivity]. }
      intros t. rewrite Hrdy, Hrdy1. simpl. intuition congruence.
    + injection H as <-. exists []. rewrite Hl. simpl.
      repeat split; auto using same_globals_refl; try tauto.
      clear. induction (all_list st); constructor;
        auto using same_but_status_refl.
Qed.

Lemma schedule_Some (st st' : kernel) :
  schedule st = Some st' ->
  let next := hd (idle_thread st) (ready_list st) in
  exists t,
    find_thread next (all_list st) = Some t
    /\ st' = intr_set_level (old_level t)
               (set_all_list
                  (update_thread next (set_status THREAD_RUNNING) (all_list st))
                  (set_running_thread next
                     (set_ready_list (tl (ready_list st)) st))).
Proof.
  unfold schedule. intros H. bind_inv H. injection H as <-.
  eexists; split; [reflexivity|]. reflexivity.
Qed.

Lemma timer_sleep_Some (n : Z) (st st' : kernel) :
  timer_sleep n st = Some st' ->
  level st = INTR_ON
  /\ status_of st (thread_current st) = Some THREAD_RUNNING
  /\ schedule
       (set_all_list
          (update_thread (thread_current st) (set_status THREAD_BLOCKED)
             (update_thread (thread_current st) (set_old_level (level st))
                (all_list st)))
          (set_sleeping_threads
             (list_insert_ordered order_sleeping_threads (sleep_record n st)
                (sleeping_threads st))
             (intr_disable st))) = Some st'.
Proof.
  unfold timer_sleep, timer_ticks, thread_block. cbn [fst snd].
  intros H. assert_inv H. assert_inv H. assert_inv H.
  apply intr_level_eqb_eq in E. unfold intr_get_level in E. simpl in E.
  apply has_status_true in E1.
  split; [exact E|]. split.
  - rewrite <- E1. unfold status_of, thread_current. simpl.
    rewrite find_thread_update_thread_same by reflexivity.
    destruct (find_thread (running_thread st) (all_list st)); reflexivity.
  - rewrite <- H. destruct st; reflexivity.
Qed.

Lemma timer_sleep_sleeping_threads (n : Z) (st st' : kernel) :
  timer_sleep n st = Some st' ->
  sleeping_threads st'
  = list_insert_ordered order_sleeping_threads (sleep_record n st)
      (sleeping_threads st)
  /\ ticks st' = ticks st.
Proof.
  intros H. apply timer_sleep_Some in H. destruct H as (_ & _ & H).
  apply schedule_Some in H. destruct H as (t & _ & ->). split; reflexivity.
Qed.

Lemma thread_yield_Some (st st' : kernel) :
  thread_yield st = Some st' ->
  sleeping_threads st' = sleeping_threads st /\ ticks st' = ticks st.
Proof.
  unfold thread_yield. intros H.
  apply schedule_Some in H. destruct H as (t & _ & ->). split; reflexivity.
Qed.

(** ** The accounting part of the handler *)

Lemma timer_interrupt_split (F : Z) (st : kernel) :
  timer_interrupt F st
  = (sm <- timer_interrupt_accounting F st ;;
     wake_sleeping_threads (sleeping_threads sm) sm).
Proof.
  unfold timer_interrupt, timer_interrupt_accounting.
  match goal with |- bind ?m _ = _ => destruct m end; reflexivity.
Qed.

Lemma same_scheduling_refl (x : thread) : same_scheduling x x.
Proof. unfold same_scheduling; tauto. Qed.

Lemma same_scheduling_trans (x y z : thread) :
  same_scheduling x y -> same_scheduling y z -> same_scheduling x z.
Proof. unfold same_scheduling; intuition congruence. Qed.

Lemma Forall2_refl_thread (R : thread -> thread -> Prop) (l : list thread) :
  (forall x, R x x) -> Forall2 R l l.
Proof. intros H. induction l; constructor; auto. Qed.

Lemma update_recent_cpu_same_scheduling (L : Z) (x y : thread) :
  update_recent_cpu L x = Some y -> same_scheduling x y.
Proof.
  unfold update_recent_cpu. intros H. bind_inv H. injection H as <-.
  unfold same_scheduling; simpl; tauto.
Qed.

(** ** The priority loop *)

Lemma find_thread_related (R : thread -> thread -> Prop) (c : Z)
  (l l' : list thread) :
  (forall t t', R t t' -> tid t' = tid t) ->
  Forall2 R l l' ->
  match find_thread c l, find_thread c l' with
  | Some t, Some t' => R t t'
  | None, None => True
  | _, _ => False
  end.
Proof.
  intros Htid H. unfold find_thread.
  induction H as [|t t' l l' Ht _ IH]; cbn [find]; [exact I|].
  rewrite (Htid t t' Ht). destruct (tid t =? c); [exact Ht | exact IH].
Qed.

(** [calculate_priority ()] reads the recent_cpu and the nice of the running
    thread and nothing else. *)
Lemma calculate_priority_ext (a b : kernel) :
  running_thread a = running_thread b ->
  Forall2
    (fun t t' =>
       tid t' = tid t /\ recent_cpu t' = recent_cpu t
       /\ nice_value t' = nice_value t)
    (all_list a) (all_list b) ->
  calculate_priority a = calculate_priority b.
Proof.
  intros Hrun Hall. unfold calculate_priority, thread_current, get_all_list.
  rewrite Hrun.
  pose proof (find_thread_related _ (running_thread b) _ _
                (fun t t' H => proj1 H) Hall) as H.
  destruct (find_thread (running_thread b) (all_list a)) as [t|],
    (find_thread (running_thread b) (all_list b)) as [t'|];
    try contradiction; [|reflexivity].
  destruct H as (_ & -> & ->). reflexivity.
Qed.

Lemma same_accounting_refl (l : list thread) :
  Forall2
    (fun t t' =>
       tid t' = tid t /\ recent_cpu t' = recent_cpu t
       /\ nice_value t' = nice_value t) l l.
Proof. induction l; constructor; auto. Qed.

(** The loop assigns one and the same value, the one [calculate_priority ()]
    returns when the loop starts: the assignments to [priority] do not
    change what it reads. *)
Lemma update_priority_loop_map (st : kernel) (todo : list thread) :
  forall visited,
    update_priority_loop st visited todo
    = visited
      ++ map (fun t =>
                if tid t =? get_idle_thread st then t
                else set_priority
                       (calculate_priority
                          (set_all_list (visited ++ todo) st)) t)
           todo.
Proof.
  induction todo as [|t rest IH]; intros visited; cbn [update_priority_loop map].
  - symmetry. apply app_nil_r.
  - rewrite IH, <- app_assoc. cbn [app]. f_equal.
    change (get_idle_thread (set_all_list (visited ++ t :: rest) st))
      with (get_idle_thread st).
    f_equal. apply map_ext. intros x.
    destruct (tid x =? get_idle_thread st); [reflexivity|].
    f_equal. apply calculate_priority_ext; [reflexivity|].
    cbn [all_list set_all_list]. rewrite <- app_assoc. cbn [app].
    apply Forall2_app; [apply same_accounting_refl|].
    constructor; [|apply same_accounting_refl].
    destruct (tid t =? get_idle_thread st); destruct t; cbn; auto.
Qed.

Lemma update_priority_for_all_threads_map (st : kernel) :
  update_priority_for_all_threads st
  = set_all_list
      (map (fun t =>
              if tid t =? get_idle_thread st then t
              else set_priority (calculate_priority st) t)
         (all_list st)) st.
Proof.
  unfold update_priority_for_all_threads, get_all_list.
  rewrite update_priority_loop_map. reflexivity.
Qed.

Lemma timer_interrupt_accounting_frame (F : Z) (st sm : kernel) :
  timer_interrupt_accounting F st = Some sm ->
  ticks sm = wrap64 (ticks st + 1)
  /\ sleeping_threads sm = sleeping_threads st
  /\ ready_list sm = ready_list st
  /\ running_thread sm = running_thread st
  /\ idle_thread sm = idle_thread st
  /\ level sm = level st
  /\ thread_mlfqs sm = thread_mlfqs st
  /\ Forall2 same_scheduling (all_list st) (all_list sm).
Proof.
  unfold timer_interrupt_accounting, thread_tick, thread_current,
    get_idle_thread, update_load_avg, update_recent_cpu_for_all_threads,
    get_all_list.
  intros H. bind_inv H. injection H as <-.
  set (s1 := if running_thread _ =? idle_thread _ then _ else _) in E.
  assert (F1 : ticks s1 = wrap64 (ticks st + 1)
                /\ sleeping_threads s1 = sleeping_threads st
                /\ ready_list s1 = ready_list st
                /\ running_thread s1 = running_thread st
                /\ idle_thread s1 = idle_thread st
                /\ level s1 = level st
                /\ thread_mlfqs s1 = thread_mlfqs st
                /\ Forall2 same_scheduling (all_list st) (all_list s1)).
  { subst s1. simpl. destruct (running_thread st =? idle_thread st); simpl;
      repeat split;
      auto using Forall2_refl_thread, same_scheduling_refl.
    apply Forall2_update_thread; [exact same_scheduling_refl|].
    intros x; unfold same_scheduling; simpl; tauto. }
  clearbody s1.
  assert (F2 : ticks k = ticks s1
                /\ sleeping_threads k = sleeping_threads s1
                /\ ready_list k = ready_list s1
                /\ running_thread k = running_thread s1
                /\ idle_thread k = idle_thread s1
                /\ level k = level s1
                /\ thread_mlfqs k = thread_mlfqs s1
                /\ Forall2 same_scheduling (all_list s1) (all_list k)).
  { destruct (Z.rem (ticks s1) F =? 0).
    - bind_inv E. bind_inv E0. injection E0 as <-.
      bind_inv E. injection E as <-. simpl in *.
      repeat split.
      match goal with
      | M : mapM _ _ = Some _ |- _ => eapply mapM_Forall2; [|exact M]
      end.
      intros x y. apply update_recent_cpu_same_scheduling.
    - injection E as <-.
      repeat split; auto using Forall2_refl_thread, same_scheduling_refl. }
  destruct F1 as (A1 & A2 & A3 & A4 & A5 & A6 & A7 & A8).
  destruct F2 as (B1 & B2 & B3 & B4 & B5 & B6 & B7 & B8).
  assert (B9 : Forall2 same_scheduling (all_list st) (all_list k))
    by (eapply Forall2_trans_thread; eauto using same_scheduling_trans).
  rewrite update_priority_for_all_threads_map.
  destruct (Z.rem (ticks k) 4 =? 0); simpl;
    repeat split; try congruence.
  eapply Forall2_trans_thread; [exact same_scheduling_trans | exact B9 |].
  generalize (calculate_priority k). intros p.
  clear. induction (all_list k) as [|x l IH]; simpl; constructor; [|exact IH].
  destruct (tid x =? get_idle_thread k);
    unfold same_scheduling; simpl; tauto.
Qed.

Lemma timer_interrupt_accounting_status (F : Z) (st sm : kernel) (t : Z) :
  timer_interrupt_accounting F st = Some sm ->
  status_of sm t = status_of st t.
Proof.
  intros H. apply timer_interrupt_accounting_frame in H.
  apply (Forall2_status_of same_scheduling); [|apply H].
  unfold same_scheduling; tauto.
Qed.

(** ** MLFQS accounting *)

Lemma mapM_total {A B : Type} (f : A -> option B) (g : A -> B) (l : list A)
  (l' : list B) :
  (forall x y, f x = Some y -> y = g x) ->
  mapM f l = Some l' -> l' = map g l.
Proof.
  intros Hf. revert l'.
  induction l as [|x l IH]; simpl; intros l' H.
  - injection H as <-. reflexivity.
  - bind_inv H. bind_inv H. injection H as <-.
    rewrite (Hf x b E), (IH l0 eq_refl). reflexivity.
Qed.

Lemma update_recent_cpu_Some (L : Z) (x y : thread) :
  update_recent_cpu L x = Some y ->
  y = set_recent_cpu (decayed_recent_cpu L (recent_cpu x) (nice_value x)) x.
Proof.
  unfold update_recent_cpu, divide_fixed_point_numbers, decayed_recent_cpu.
  intros H. bind_inv H. injection H as <-.
  match type of E with
  | (if ?c then _ else _) = _ => destruct c; [discriminate|]
  end.
  injection E as <-. reflexivity.
Qed.

Lemma calculate_load_avg1_Some (st : kernel) :
  calculate_load_avg1 st
  = Some (next_load_avg (LOAD_AVG st) (count_running_or_ready_threads1 st)).
Proof. reflexivity. Qed.

Lemma count_after_charge (st : kernel) (now : Z) (f : thread -> thread) :
  (forall x, tid (f x) = tid x /\ status (f x) = status x) ->
  count_running_or_ready_threads1
    (set_all_list (map f (all_list st)) (set_ticks now st))
  = count_running_or_ready_threads1 st.
Proof.
  intros Hf.
  unfold count_running_or_ready_threads1, thread_foreach, get_all_list.
  simpl. generalize 0. induction (all_list st) as [|x l' IH]; intros acc;
    simpl; [reflexivity|].
  rewrite IH. f_equal. unfold check_thread_status1, get_idle_thread. simpl.
  destruct (Hf x) as [-> ->]. reflexivity.
Qed.

Lemma update_thread_as_map (st : kernel) :
  (if thread_current st =? get_idle_thread st then all_list st
   else update_thread (thread_current st)
          (fun t => set_recent_cpu
                      (add_int_to_fixed_point_number (recent_cpu t) 1) t)
          (all_list st))
  = map (fun t => set_recent_cpu (charged_recent_cpu st t) t) (all_list st).
Proof.
  unfold charged_recent_cpu, update_thread.
  destruct (thread_current st =? get_idle_thread st); simpl.
  - rewrite <- (map_id (all_list st)) at 1. apply map_ext.
    intros t. rewrite andb_false_r. destruct t; reflexivity.
  - apply map_ext. intros t. rewrite andb_true_r.
    destruct (tid t =? thread_current st); [reflexivity|].
    destruct t; reflexivity.
Qed.

Lemma timer_interrupt_accounting_spec (F : Z) (st sm : kernel) :
  timer_interrupt_accounting F st = Some sm ->
  LOAD_AVG sm
  = (if Z.rem (wrap64 (ticks st + 1)) F =? 0
     then next_load_avg (LOAD_AVG st) (count_running_or_ready_threads1 st)
     else LOAD_AVG st)
  /\ all_list sm
     = map (accounted_thread F st (LOAD_AVG sm) (calculate_priority sm))
         (all_list st).
Proof.
  unfold timer_interrupt_accounting, thread_tick. intros H.
  set (now := wrap64 (ticks st + 1)) in *.
  set (l1 := map (fun t => set_recent_cpu (charged_recent_cpu st t) t)
               (all_list st)).
  assert (Hs1 : (if thread_current (set_ticks now st)
                    =? get_idle_thread (set_ticks now st)
                 then set_ticks now st
                 else set_all_list
                        (update_thread (thread_current (set_ticks now st))
                           (fun t => set_recent_cpu
                                       (add_int_to_fixed_point_number
                                          (recent_cpu t) 1) t)
                           (all_list (set_ticks now st)))
                        (set_ticks now st))
                = set_all_list l1 (set_ticks now st)).
  { subst l1. rewrite <- update_thread_as_map.
    change (thread_current (set_ticks now st)) with (thread_current st).
    change (get_idle_thread (set_ticks now st)) with (get_idle_thread st).
    destruct (thread_current st =? get_idle_thread st); [|reflexivity].
    destruct st; reflexivity. }
  rewrite Hs1 in H. clear Hs1. bind_inv H. injection H as <-.
  change (ticks (set_all_list l1 (set_ticks now st))) with now in E.
  assert (Hk : LOAD_AVG k
               = (if Z.rem now F =? 0
                  then next_load_avg (LOAD_AVG st)
                         (count_running_or_ready_threads1 st)
                  else LOAD_AVG st)
               /\ ticks k = now /\ idle_thread k = idle_thread st
               /\ all_list k
                  = map (fun t1 =>
                           if Z.rem now F =? 0
                           then set_recent_cpu
                                  (decayed_recent_cpu (LOAD_AVG k)
                                     (recent_cpu t1) (nice_value t1)) t1
                           else t1) l1).
  { destruct (Z.rem now F =? 0).
    - unfold update_load_avg in E. rewrite calculate_load_avg1_Some in E.
      cbn [bind] in E. unfold update_recent_cpu_for_all_threads in E.
      bind_inv E. injection E as <-. subst l1.
      rewrite count_after_charge in * by (intros x; split; reflexivity).
      simpl. repeat split.
      eapply mapM_total; [|exact E0].
      intros x y Hxy. apply update_recent_cpu_Some in Hxy. exact Hxy.
    - injection E as <-. simpl. repeat split.
      symmetry. apply map_id. }
  destruct Hk as (HL & Htk & Hidle & Hall).
  set (sm := if Z.rem (ticks k) 4 =? 0
             then update_priority_for_all_threads k else k).
  assert (HL' : LOAD_AVG sm = LOAD_AVG k).
  { subst sm. destruct (Z.rem (ticks k) 4 =? 0); [|reflexivity].
    rewrite update_priority_for_all_threads_map. reflexivity. }
  assert (Hp : calculate_priority sm = calculate_priority k).
  { subst sm. destruct (Z.rem (ticks k) 4 =? 0); [|reflexivity].
    rewrite update_priority_for_all_threads_map.
    apply calculate_priority_ext; [reflexivity|].
    cbn [all_list set_all_list]. generalize (calculate_priority k).
    intros p. clear.
    induction (all_list k) as [|x l IH]; cbn [map]; constructor; [|exact IH].
    destruct (tid x =? get_idle_thread k); destruct x; cbn; auto. }
  rewrite HL', Hp. split; [exact HL|].
  transitivity
    (map (fun t2 => if Z.rem now 4 =? 0
                    then if tid t2 =? idle_thread st then t2
                         else set_priority (calculate_priority k) t2
                    else t2) (all_list k)).
  - subst sm. rewrite Htk. destruct (Z.rem now 4 =? 0).
    + rewrite update_priority_for_all_threads_map. unfold get_idle_thread.
      cbn [all_list set_all_list]. rewrite Hidle. reflexivity.
    + symmetry. apply map_id.
  - rewrite Hall. subst l1. rewrite !map_map. reflexivity.
Qed.

(** ** The handler runs to its end *)

Lemma mapM_defined {A B : Type} (f : A -> option B) (l : list A) :
  (forall x, In x l -> f x <> None) -> exists l', mapM f l = Some l'.
Proof.
  induction l as [|x l IH]; intros H; simpl.
  - exists []. reflexivity.
  - destruct (f x) as [y|] eqn:E; [|exfalso; apply (H x); simpl; auto].
    destruct IH as [l' ->]; [intros z Hz; apply H; simpl; auto|].
    exists (y :: l'). reflexivity.
Qed.

Lemma timer_interrupt_accounting_charged (F : Z) (st : kernel) :
  timer_interrupt_accounting F st
  = let now := wrap64 (ticks st + 1) in
    let s1 :=
      set_all_list
        (map (fun t => set_recent_cpu (charged_recent_cpu st t) t)
           (all_list st))
        (set_ticks now st) in
    k <- (if Z.rem now F =? 0
          then st1 <- update_load_avg s1 ;;
               update_recent_cpu_for_all_threads st1
          else Some s1) ;;
    Some (if Z.rem (ticks k) 4 =? 0 then update_priority_for_all_threads k
          else k).
Proof.
  unfold timer_interrupt_accounting, thread_tick.
  rewrite <- update_thread_as_map.
  change (thread_current (set_ticks (wrap64 (ticks st + 1)) st))
    with (thread_current st).
  change (get_idle_thread (set_ticks (wrap64 (ticks st + 1)) st))
    with (get_idle_thread st).
  destruct (thread_current st =? get_idle_thread st); [|reflexivity].
  destruct st; reflexivity.
Qed.

Lemma timer_interrupt_accounting_total (F : Z) (st : kernel) :
  no_division_trap F st ->
  exists sm, timer_interrupt_accounting F st = Some sm.
Proof.
  intros Htrap. rewrite timer_interrupt_accounting_charged. cbv zeta.
  set (now := wrap64 (ticks st + 1)) in *.
  set (l1 := map (fun t => set_recent_cpu (charged_recent_cpu st t) t)
               (all_list st)).
  destruct (Z.rem now F =? 0) eqn:Hrem; [|eexists; reflexivity].
  apply Z.eqb_eq in Hrem.
  unfold update_load_avg. rewrite calculate_load_avg1_Some. cbn [bind].
  subst l1. rewrite count_after_charge by (intros x; split; reflexivity).
  unfold update_recent_cpu_for_all_threads, get_all_list.
  cbn [all_list LOAD_AVG set_LOAD_AVG set_all_list set_ticks].
  set (L := next_load_avg _ _) in *.
  destruct (mapM_defined (update_recent_cpu L)
              (map (fun t => set_recent_cpu (charged_recent_cpu st t) t)
                 (all_list st))) as [l' Hl'].
  - intros x Hx. unfold update_recent_cpu, divide_fixed_point_numbers.
    assert (Hne : all_list st <> [])
      by (destruct (all_list st); [destruct Hx | discriminate]).
    specialize (Htrap Hrem Hne). fold L in Htrap.
    apply Z.eqb_neq in Htrap. rewrite Htrap. discriminate.
  - rewrite Hl'. eexists; reflexivity.
Qed.

Lemma wake_sleeping_threads_total (l : list sleeping_thread) :
  forall st,
    NoDup (map current_thread l) ->
    Forall (fun r => status_of st (current_thread r) = Some THREAD_BLOCKED) l ->
    exists st', wake_sleeping_threads l st = Some st'.
Proof.
  induction l as [|r l IH]; intros st Hnd Hblk; simpl.
  - eexists; reflexivity.
  - destruct (ticks_till_release r <=? ticks st); [|eexists; reflexivity].
    inversion Hnd as [|? ? Hnotin Hnd']; subst.
    inversion Hblk as [|? ? Hr Hblk']; subst.
    destruct (thread_unblock (current_thread r) (set_sleeping_threads l st))
      as [st1|] eqn:E.
    + cbn [bind]. apply IH; [exact Hnd'|].
      rewrite Forall_forall in *. intros r' Hin.
      rewrite (thread_unblock_status _ (current_thread r') _ _ E).
      destruct (Z.eqb_spec (current_thread r') (current_thread r)) as [Heq|_].
      * exfalso. apply Hnotin. rewrite <- Heq. apply in_map. exact Hin.
      * apply (Hblk' r' Hin).
    + exfalso. unfold thread_unblock in E.
      assert (Hs : has_status (set_sleeping_threads l st) (current_thread r)
                     THREAD_BLOCKED = true)
        by (apply has_status_true; exact Hr).
      rewrite Hs in E. discriminate E.
Qed.

Lemma timer_interrupt_total (F : Z) (st : kernel) :
  interrupt_ready F st -> exists st', timer_interrupt F st = Some st'.
Proof.
  intros [Htrap [Hnd Hblk]]. rewrite timer_interrupt_split.
  destruct (timer_interrupt_accounting_total F st Htrap) as [sm Hsm].
  rewrite Hsm. cbn [bind].
  pose proof (timer_interrupt_accounting_frame F st sm Hsm) as (_ & Hsl & _).
  rewrite Hsl. apply wake_sleeping_threads_total; [exact Hnd|].
  eapply Forall_impl; [|exact Hblk]. intros r Hr. cbv beta in *.
  rewrite (timer_interrupt_accounting_status F st sm _ Hsm). exact Hr.
Qed.

Lemma find_thread_update_thread_defined (t u : Z) (f : thread -> thread)
  (l : list thread) :
  (forall x, tid (f x) = tid x) ->
  find_thread t l <> None -> find_thread t (update_thread u f l) <> None.
Proof.
  intros Hf H. destruct (Z.eq_dec t u) as [->|Hne].
  - rewrite find_thread_update_thread_same by exact Hf.
    destruct (find_thread u l); [discriminate | contradiction].
  - rewrite find_thread_update_thread_other by assumption. exact H.
Qed.

Lemma timer_sleep_total (n : Z) (st : kernel) :
  may_sleep st -> exists st1, timer_sleep n st = Some st1.
Proof.
  intros (Hon & Hrun & Hnext).
  unfold timer_sleep, timer_ticks, thread_block, schedule, intr_get_level,
    intr_disable, thread_current in *.
  cbn [fst snd level intr_set_level ticks sleeping_threads all_list ready_list
       running_thread idle_thread set_all_list set_sleeping_threads].
  rewrite Hon. cbn [intr_level_eqb ASSERT bind].
  match goal with
  | |- context [has_status ?y ?t ?s] =>
      assert (Hs : has_status y t s = true)
  end.
  { apply has_status_true. unfold status_of in *.
    cbn [all_list set_all_list set_sleeping_threads intr_set_level].
    rewrite find_thread_update_thread_same by reflexivity.
    destruct (find_thread (running_thread st) (all_list st));
      [exact Hrun | discriminate]. }
  rewrite Hs. cbn [ASSERT bind].
  match goal with
  | |- context [find_thread ?t ?l] =>
      destruct (find_thread t l) eqn:E
  end.
  - cbn [bind]. eexists; reflexivity.
  - exfalso. revert E.
    apply find_thread_update_thread_defined; [reflexivity|].
    apply find_thread_update_thread_defined; [reflexivity|]. exact Hnext.
Qed.

(** ** The handler and the sleep list *)

Lemma timer_interrupt_Some (F : Z) (st st' : kernel) :
  timer_interrupt F st = Some st' ->
  exists sm woken,
    timer_interrupt_accounting F st = Some sm
    /\ ticks st' = wrap64 (ticks st + 1)
    /\ sleeping_threads st = woken ++ sleeping_threads st'
    /\ Forall (fun r => ticks_till_release r <= ticks st') woken
    /\ head_in_future (ticks st') (sleeping_threads st')
    /\ same_globals sm st'
    /\ Forall2 same_but_status (all_list sm) (all_list st')
    /\ (forall r, In r woken ->
          status_of st (current_thread r) = Some THREAD_BLOCKED
          /\ status_of st' (current_thread r) = Some THREAD_READY)
    /\ (forall t, ~ In t (map current_thread woken) ->
          status_of st' t = status_of st t)
    /\ (forall t, In t (ready_list st') <->
          In t (map current_thread woken) \/ In t (ready_list st)).
Proof.
  rewrite timer_interrupt_split. intros H. bind_inv H. rename k into sm.
  pose proof (fun t => timer_interrupt_accounting_status F st sm t E) as Hst.
  pose proof (timer_interrupt_accounting_frame F st sm E)
    as (Htk & Hsl & Hrdy & _).
  destruct (wake_sleeping_threads_spec _ sm st' eq_refl H)
    as (woken & Hw & Hdue & Hhd & Hg & Hall & Hwst & Hoth & Hr).
  assert (Htk' : ticks st' = ticks sm) by apply Hg.
  exists sm, woken.
  split; [reflexivity|]. split; [congruence|].
  split; [rewrite <- Hsl; exact Hw|].
  split; [rewrite Htk'; exact Hdue|].
  split; [rewrite Htk'; exact Hhd|].
  split; [exact Hg|]. split; [exact Hall|].
  split; [intros r Hin; rewrite <- Hst; apply Hwst; exact Hin|].
  split; [intros t Ht; rewrite <- Hst; auto|].
  intros t. rewrite <- Hrdy. apply Hr.
Qed.

Lemma timer_interrupt_walk (F : Z) (st st' : kernel) :
  timer_interrupt F st = Some st' ->
  ticks st' = wrap64 (ticks st + 1)
  /\ exists woken,
       sleeping_threads st = woken ++ sleeping_threads st'
       /\ Forall (fun r =>
                    ticks_till_release r <= ticks st'
                    /\ status_of st (current_thread r) = Some THREAD_BLOCKED
                    /\ status_of st' (current_thread r) = Some THREAD_READY
                    /\ In (current_thread r) (ready_list st')) woken
       /\ head_in_future (ticks st') (sleeping_threads st')
       /\ (wake_sorted (sleeping_threads st) ->
           Forall (fun r => ticks st' < ticks_till_release r)
             (sleeping_threads st')).
Proof.
  intros H. apply timer_interrupt_Some in H.
  destruct H as (sm & woken & _ & Htk & Hw & Hdue & Hhd & _ & _ & Hwst & _ & Hr).
  split; [exact Htk|]. exists woken.
  split; [exact Hw|]. split; [|split; [exact Hhd|]].
  - rewrite Forall_forall in *. intros r Hin.
    destruct (Hwst r Hin) as [Hb Hrd].
    repeat split; auto.
    apply Hr. left. apply in_map. exact Hin.
  - intros Hs. rewrite Hw in Hs. apply wake_sorted_app_inv in Hs.
    apply wake_sorted_tail_future; assumption.
Qed.

(** C3: on a timer interrupt (in a state where the handler runs to its end:
    every sleeper is BLOCKED and the division does not trap) the tick
    counter is incremented and the handler then walks the sleep list from
    the front: the records it removes form a prefix [woken] of the list,
    each of them is due ([ticks_till_release] at most the new tick count)
    and its thread, BLOCKED before, is READY and in the ready queue
    afterwards; the walk stops at the first record that is still in the
    future, and that record and everything after it stay in the list as
    they were.  On an ordered list nothing due is left behind. *)
Theorem timer_interrupt_wakes_due_front (F : Z) (st : kernel) :
  interrupt_ready F st ->
  exists st',
    timer_interrupt F st = Some st'
    /\ ticks st' = wrap64 (ticks st + 1)
    /\ exists woken,
         sleeping_threads st = woken ++ sleeping_threads st'
         /\ Forall (fun r =>
                      ticks_till_release r <= ticks st'
                      /\ status_of st (current_thread r) = Some THREAD_BLOCKED
                      /\ status_of st' (current_thread r) = Some THREAD_READY
                      /\ In (current_thread r) (ready_list st')) woken
         /\ head_in_future (ticks st') (sleeping_threads st')
         /\ (wake_sorted (sleeping_threads st) ->
             Forall (fun r => ticks st' < ticks_till_release r)
               (sleeping_threads st')).
Proof.
  intros Hready. destruct (timer_interrupt_total F st Hready) as [st' Hst'].
  exists st'. split; [exact Hst'|].
  apply (timer_interrupt_walk F). exact Hst'.
Qed.

Lemma asleep_interrupt_ready (t : Z) : interrupt_ready 100 (set_ticks t asleep).
Proof.
  split.
  - intros _ _. vm_compute. discriminate.
  - split.
    + repeat constructor. simpl. tauto.
    + repeat constructor.
Defined.

Lemma timer_interrupt_wakes_due_front_witness :
  interrupt_ready 100 (set_ticks 1 asleep)
  /\ exists st',
       timer_interrupt 100 (set_ticks 1 asleep) = Some st'
       /\ ticks st' = wrap64 (ticks (set_ticks 1 asleep) + 1)
       /\ exists woken,
            sleeping_threads (set_ticks 1 asleep)
            = woken ++ sleeping_threads st'
            /\ Forall (fun r =>
                         ticks_till_release r <= ticks st'
                         /\ status_of (set_ticks 1 asleep) (current_thread r)
                            = Some THREAD_BLOCKED
                         /\ status_of st' (current_thread r)
                            = Some THREAD_READY
                         /\ In (current_thread r) (ready_list st')) woken
            /\ head_in_future (ticks st') (sleeping_threads st')
            /\ (wake_sorted (sleeping_threads (set_ticks 1 asleep)) ->
                Forall (fun r => ticks st' < ticks_till_release r)
                  (sleeping_threads st')).
Proof.
  split; [exact (asleep_interrupt_ready 1)|].
  exact (timer_interrupt_wakes_due_front 100 (set_ticks 1 asleep)
           (asleep_interrupt_ready 1)).
Defined.

(** C4: the sleep list is ordered by ascending wake tick and stays so.
    [timer_sleep] puts its record behind every record that is due no later
    (so behind the records with the same wake tick, which were inserted
    before it) and in front of every record that is due later, without
    moving any other record; [timer_interrupt] removes a prefix; hence every
    state of an execution that starts with an ordered list has an ordered
    list. *)
Theorem sleep_list_stays_sorted (F : Z) (st : kernel) :
  wake_sorted (sleeping_threads st) ->
  (forall n st',
      timer_sleep n st = Some st' ->
      wake_sorted (sleeping_threads st')
      /\ exists before after,
           sleeping_threads st = before ++ after
           /\ sleeping_threads st' = before ++ sleep_record n st :: after
           /\ Forall (fun e => ticks_till_release e
                               <= ticks_till_release (sleep_record n st)) before
           /\ Forall (fun e => ticks_till_release (sleep_record n st)
                               < ticks_till_release e) after)
  /\ (forall st',
        timer_interrupt F st = Some st' ->
        wake_sorted (sleeping_threads st')
        /\ exists woken, sleeping_threads st = woken ++ sleeping_threads st')
  /\ (forall evs sts,
        trace F evs st = Some sts ->
        Forall (fun x => wake_sorted (sleeping_threads x)) sts).
Proof.
  intros Hs.
  assert (Hsleep : forall n x x', wake_sorted (sleeping_threads x) ->
            timer_sleep n x = Some x' -> wake_sorted (sleeping_threads x')).
  { intros n x x' Hx H. apply timer_sleep_sleeping_threads in H.
    destruct H as [-> _]. apply wake_sorted_insert. exact Hx. }
  assert (Hint : forall x x', wake_sorted (sleeping_threads x) ->
            timer_interrupt F x = Some x' -> wake_sorted (sleeping_threads x')).
  { intros x x' Hx H. apply timer_interrupt_Some in H.
    destruct H as (_ & woken & _ & _ & Hw & _).
    rewrite Hw in Hx. eapply wake_sorted_app_inv; exact Hx. }
  split; [|split].
  - intros n st' H. split; [eauto|].
    apply timer_sleep_sleeping_threads in H. destruct H as [-> _].
    destruct (list_insert_ordered_split order_sleeping_threads
                (sleep_record n st) (sleeping_threads st))
      as (before & after & Hl & Hins & Hb & Ha).
    exists before, after. split; [exact Hl|]. split; [exact Hins|].
    split.
    + eapply Forall_impl; [|exact Hb]. unfold order_sleeping_threads.
      intros e He. apply Z.ltb_ge in He. exact He.
    + rewrite Hl in Hs. apply wake_sorted_app_inv in Hs.
      destruct after as [|e after]; [constructor|].
      unfold order_sleeping_threads in Ha. apply Z.ltb_lt in Ha.
      apply (wake_sorted_tail_future _ _ Hs Ha).
  - intros st' H. split; [eauto|].
    apply timer_interrupt_Some in H.
    destruct H as (_ & woken & _ & _ & Hw & _). eauto.
  - intros evs. revert st Hs.
    induction evs as [|ev evs IH]; intros st Hs sts H; simpl in H.
    + injection H as <-. constructor.
    + bind_inv H. bind_inv H. injection H as <-.
      assert (Hk : wake_sorted (sleeping_threads k)).
      { destruct ev; simpl in E.
        - assert_inv E. bind_inv E. injection E as <-. simpl.
          eapply Hint; [|eassumption]. exact Hs.
        - eauto.
        - apply thread_yield_Some in E. destruct E as [-> _]. exact Hs. }
      constructor; eauto.
Qed.

Lemma sleep_list_stays_sorted_witness :
  wake_sorted (sleeping_threads asleep)
  /\ ((forall n st',
         timer_sleep n asleep = Some st' ->
         wake_sorted (sleeping_threads st')
         /\ exists before after,
              sleeping_threads asleep = before ++ after
              /\ sleeping_threads st' = before ++ sleep_record n asleep :: after
              /\ Forall (fun e => ticks_till_release e
                                  <= ticks_till_release (sleep_record n asleep))
                   before
              /\ Forall (fun e => ticks_till_release (sleep_record n asleep)
                                  < ticks_till_release e) after)
      /\ (forall st',
            timer_interrupt 100 asleep = Some st' ->
            wake_sorted (sleeping_threads st')
            /\ exists woken,
                 sleeping_threads asleep = woken ++ sleeping_threads st')
      /\ (forall evs sts,
            trace 100 evs asleep = Some sts ->
            Forall (fun x => wake_sorted (sleeping_threads x)) sts)).
Proof.
  assert (H : wake_sorted (sleeping_threads asleep))
    by (repeat constructor).
  split; [exact H | exact (sleep_list_stays_sorted 100 asleep H)].
Defined.

(** ** A sleeping thread during an execution *)

Lemma last_cons_default {A : Type} (a d : A) (l : list A) :
  last (a :: l) d = last l a.
Proof.
  revert a d. induction l as [|b l IH]; intros a d; [reflexivity|].
  change (last (a :: b :: l) d) with (last (b :: l) d).
  rewrite (IH b d), (IH b a). reflexivity.
Qed.

Lemma step_keeps_sleeper_records (F : Z) (ev : event) (x x' : kernel)
  (c w : Z) :
  step F ev x = Some x' ->
  status_of x c = Some THREAD_BLOCKED ->
  Forall (fun r => current_thread r = c -> w <= ticks_till_release r)
    (sleeping_threads x) ->
  Forall (fun r => current_thread r = c -> w <= ticks_till_release r)
    (sleeping_threads x').
Proof.
  intros H Hb Hinv. destruct ev; simpl in H.
  - assert_inv H. bind_inv H. injection H as <-. simpl.
    apply timer_interrupt_Some in E0.
    destruct E0 as (_ & woken & _ & _ & Hw & _). simpl in Hw.
    rewrite Hw in Hinv. apply Forall_app in Hinv. apply Hinv.
  - pose proof (timer_sleep_Some _ _ _ H) as (_ & Hrun & _).
    apply timer_sleep_sleeping_threads in H. destruct H as [-> _].
    rewrite Forall_forall in *. intros r Hin.
    apply list_insert_ordered_In in Hin. destruct Hin as [->|Hin]; [|auto].
    simpl. intros <-. congruence.
  - apply thread_yield_Some in H. destruct H as [-> _]. exact Hinv.
Qed.

Lemma tick_unblocks_due_record (F : Z) (x x' : kernel) (c : Z) :
  step F Tick x = Some x' ->
  status_of x c = Some THREAD_BLOCKED ->
  status_of x' c <> Some THREAD_BLOCKED ->
  exists r,
    In r (sleeping_threads x) /\ current_thread r = c
    /\ ticks_till_release r <= ticks x'.
Proof.
  simpl. intros H Hb Hnb. assert_inv H. bind_inv H. injection H as <-.
  apply timer_interrupt_Some in E0.
  destruct E0 as (_ & woken & _ & _ & Hw & Hdue & _ & _ & _ & _ & Hoth & _).
  simpl in Hw.
  destruct (in_dec Z.eq_dec c (map current_thread woken)) as [Hin|Hout].
  - apply in_map_iff in Hin. destruct Hin as (r & Hr & Hin).
    exists r. rewrite Hw, in_app_iff. split; [auto|]. split; [exact Hr|].
    rewrite Forall_forall in Hdue. simpl. auto.
  - exfalso. apply Hnb. change (status_of k c = Some THREAD_BLOCKED).
    rewrite (Hoth c Hout). exact Hb.
Qed.

Lemma trace_no_early_wake (F : Z) (c w : Z) (evs : list event) :
  forall x sts x2,
    Forall (fun r => current_thread r = c -> w <= ticks_till_release r)
      (sleeping_threads x) ->
    trace F evs x = Some sts ->
    Forall (fun y => status_of y c = Some THREAD_BLOCKED) (x :: sts) ->
    step F Tick (last sts x) = Some x2 ->
    status_of x2 c <> Some THREAD_BLOCKED ->
    w <= ticks x2.
Proof.
  induction evs as [|ev evs IH]; intros x sts x2 Hinv Htr Hblk Hstep Hnb;
    simpl in Htr.
  - injection Htr as <-. simpl in Hstep. inversion Hblk; subst.
    destruct (tick_unblocks_due_record F x x2 c Hstep) as (r & Hin & Hc & Hle);
      try assumption.
    rewrite Forall_forall in Hinv. specialize (Hinv r Hin Hc). lia.
  - bind_inv Htr. bind_inv Htr. injection Htr as <-.
    inversion Hblk; subst. rewrite last_cons_default in Hstep.
    eapply (IH k); try eassumption.
    eapply step_keeps_sleeper_records; eassumption.
Qed.

(** C1, as the code has it: a thread that calls [timer_sleep (n)] with n > 0
    at tick s, with s + n representable in the signed 64-bit wake tick, is
    not unblocked by the timer interrupt handler before the tick counter has
    reached s + n: whatever happens while the thread is BLOCKED (timer
    interrupts, other threads sleeping or yielding), a timer interrupt after
    which it is no longer BLOCKED leaves the tick counter at s + n or more.
    (The caller, being the running thread, has no record in the sleep list
    when it calls.) *)
Theorem no_wake_before_wake_tick (F : Z) (st : kernel) (n : Z) (st1 : kernel)
  (evs : list event) (sts : list kernel) (st2 : kernel) :
  0 < n ->
  in_int64 (ticks st + n) ->
  ~ In (thread_current st) (map current_thread (sleeping_threads st)) ->
  timer_sleep n st = Some st1 ->
  trace F evs st1 = Some sts ->
  Forall (fun x => status_of x (thread_current st) = Some THREAD_BLOCKED)
    (st1 :: sts) ->
  step F Tick (last sts st1) = Some st2 ->
  status_of st2 (thread_current st) <> Some THREAD_BLOCKED ->
  ticks st + n <= ticks st2.
Proof.
  intros Hn Hfit Hnorec Hsleep Htr Hblk Hstep Hnb.
  eapply trace_no_early_wake; try eassumption.
  apply timer_sleep_sleeping_threads in Hsleep. destruct Hsleep as [-> _].
  rewrite Forall_forall. intros r Hin Hc.
  apply list_insert_ordered_In in Hin. destruct Hin as [->|Hin].
  - simpl. rewrite wrap64_id by assumption. lia.
  - exfalso. apply Hnorec. rewrite <- Hc. apply in_map. exact Hin.
Qed.

Lemma no_wake_before_wake_tick_witness :
  exists sts st2,
    trace 100 [Tick] asleep = Some sts
    /\ step 100 Tick (last sts asleep) = Some st2
    /\ status_of st2 (thread_current boot) = Some THREAD_READY
    /\ ticks boot + 2 <= ticks st2.
Proof.
  eexists. eexists.
  split; [vm_compute; reflexivity|].
  split; [vm_compute; reflexivity|].
  split; [vm_compute; reflexivity|].
  eapply (no_wake_before_wake_tick 100 boot 2 asleep [Tick]).
  - lia.
  - unfold in_int64, INT64_MIN, INT64_MAX. simpl. lia.
  - simpl. tauto.
  - vm_compute; reflexivity.
  - vm_compute; reflexivity.
  - repeat constructor.
  - vm_compute; reflexivity.
  - vm_compute. discriminate.
Defined.

Lemma early_wake_on_overflow :
  exists st1 st2,
    0 < INT64_MAX
    /\ ~ In (thread_current (boot_at 1))
           (map current_thread (sleeping_threads (boot_at 1)))
    /\ timer_sleep INT64_MAX (boot_at 1) = Some st1
    /\ sleeping_threads st1 = [mk_sleeping_thread 1 INT64_MIN]
    /\ trace 100 [] st1 = Some []
    /\ status_of st1 (thread_current (boot_at 1)) = Some THREAD_BLOCKED
    /\ step 100 Tick (last [] st1) = Some st2
    /\ status_of st2 (thread_current (boot_at 1)) = Some THREAD_READY
    /\ ticks st2 = 2
    /\ ~ ticks (boot_at 1) + INT64_MAX <= ticks st2.
Proof.
  eexists. eexists.
  split; [reflexivity|].
  split; [simpl; tauto|].
  split; [vm_compute; reflexivity|].
  split; [reflexivity|].
  split; [reflexivity|].
  split; [reflexivity|].
  split; [vm_compute; reflexivity|].
  split; [reflexivity|].
  split; [reflexivity|].
  vm_compute. intros H. apply H. reflexivity.
Qed.

(** ** The interrupt level of a suspended thread *)

Lemma Forall2_old_level_of (R : thread -> thread -> Prop) (st st' : kernel)
  (t : Z) :
  (forall x y, R x y -> tid y = tid x /\ old_level y = old_level x) ->
  Forall2 R (all_list st) (all_list st') ->
  old_level_of st' t = old_level_of st t.
Proof.
  intros HR H. unfold old_level_of.
  pose proof (Forall2_find_thread R t _ _ (fun x y h => proj1 (HR x y h)) H) as F.
  destruct (find_thread t (all_list st)), (find_thread t (all_list st'));
    simpl; try contradiction; [|reflexivity].
  f_equal. apply HR. exact F.
Qed.

Lemma old_level_of_set_status (st : kernel) (l : list thread) (t u : Z)
  (s : thread_status) :
  old_level_of (set_all_list (update_thread u (set_status s) l) st) t
  = old_level_of (set_all_list l st) t.
Proof.
  unfold old_level_of. simpl. destruct (Z.eq_dec t u) as [->|Hne].
  - rewrite find_thread_update_thread_same by reflexivity.
    destruct (find_thread u l); reflexivity.
  - rewrite find_thread_update_thread_other by (auto; reflexivity).
    reflexivity.
Qed.

Lemma schedule_old_level (y y' : kernel) :
  schedule y = Some y' ->
  (forall c, old_level_of y' c = old_level_of y c)
  /\ old_level_of y (running_thread y') = Some (level y').
Proof.
  intros H. apply schedule_Some in H. destruct H as (t & Hfind & ->).
  split.
  - intros c.
    exact (old_level_of_set_status y (all_list y) c _ THREAD_RUNNING).
  - unfold old_level_of. simpl. rewrite Hfind. reflexivity.
Qed.

(** What a step run by another thread does to the [old_level] on the stack
    of thread [c], and what it means for the step to switch to [c]. *)
Lemma step_suspended (F : Z) (ev : event) (x x' : kernel) (c : Z) :
  step F ev x = Some x' ->
  thread_current x <> c ->
  old_level_of x' c = old_level_of x c
  /\ (thread_current x' = c -> old_level_of x c = Some (level x')).
Proof.
  unfold thread_current. intros H Hc. destruct ev; simpl in H.
  - assert_inv H. bind_inv H. injection H as <-.
    apply timer_interrupt_Some in E0.
    destruct E0 as (sm & woken & Hacc & _ & _ & _ & _ & Hg & Hall & _).
    apply timer_interrupt_accounting_frame in Hacc.
    destruct Hacc as (_ & _ & _ & Hrun & _ & _ & _ & Hall0).
    assert (Hrun' : running_thread k = running_thread sm) by apply Hg.
    simpl in *. split; [|congruence].
    transitivity (old_level_of sm c).
    + change (old_level_of k c = old_level_of sm c).
      apply (Forall2_old_level_of same_but_status); [|exact Hall].
      unfold same_but_status; tauto.
    + change (old_level_of sm c = old_level_of (intr_disable x) c).
      apply (Forall2_old_level_of same_scheduling); [|exact Hall0].
      unfold same_scheduling; tauto.
  - apply timer_sleep_Some in H. destruct H as (_ & _ & H).
    apply schedule_old_level in H. destruct H as [Hall Hnext].
    match type of Hall with
    | forall c, _ = old_level_of ?y c =>
        assert (Hy : old_level_of y c = old_level_of x c)
    end.
    { unfold old_level_of, thread_current. simpl.
      rewrite !find_thread_update_thread_other by (auto; reflexivity).
      reflexivity. }
    split; [rewrite Hall; exact Hy|].
    intros <-. rewrite <- Hy. exact Hnext.
  - unfold thread_yield in H.
    apply schedule_old_level in H. destruct H as [Hall Hnext].
    match type of Hall with
    | forall c, _ = old_level_of ?y c =>
        assert (Hy : old_level_of y c = old_level_of x c)
    end.
    { unfold old_level_of, thread_current, intr_get_level. simpl.
      rewrite !find_thread_update_thread_other by (auto; reflexivity).
      reflexivity. }
    split; [rewrite Hall; exact Hy|].
    intros <-. rewrite <- Hy. exact Hnext.
Qed.

Lemma timer_sleep_old_level (n : Z) (st st1 : kernel) :
  timer_sleep n st = Some st1 ->
  level st = INTR_ON
  /\ old_level_of st1 (thread_current st) = Some (level st)
  /\ (thread_current st1 = thread_current st -> level st1 = level st).
Proof.
  intros H. apply timer_sleep_Some in H. destruct H as (Hon & Hrun & H).
  apply schedule_old_level in H. destruct H as [Hall Hnext].
  split; [exact Hon|].
  match type of Hall with
  | forall c, _ = old_level_of ?y c =>
      assert (Hy : old_level_of y (thread_current st) = Some (level st))
  end.
  { unfold old_level_of, status_of in *. simpl.
    rewrite !find_thread_update_thread_same by reflexivity.
    destruct (find_thread (thread_current st) (all_list st));
      [reflexivity | discriminate]. }
  split; [rewrite Hall; exact Hy|].
  unfold thread_current in *. intros Heq. rewrite Heq, Hy in Hnext. congruence.
Qed.

Lemma trace_resume (F : Z) (c : Z) (lv : intr_level) (evs : list event) :
  forall y sts pre x post,
    trace F evs y = Some sts ->
    thread_current y <> c ->
    old_level_of y c = Some lv ->
    sts = pre ++ x :: post ->
    Forall (fun z => thread_current z <> c) pre ->
    thread_current x = c ->
    level x = lv.
Proof.
  induction evs as [|ev evs IH]; intros y sts pre x post Htr Hy Hlv Hsplit Hpre Hx;
    simpl in Htr.
  - injection Htr as <-. destruct pre; discriminate.
  - bind_inv Htr. bind_inv Htr. injection Htr as <-.
    destruct (step_suspended F ev y k c E Hy) as [Hkeep Hsw].
    destruct pre as [|p pre]; simpl in Hsplit; injection Hsplit as <- ->.
    + specialize (Hsw Hx). congruence.
    + inversion Hpre; subst.
      eapply (IH k); try eassumption; try reflexivity. congruence.
Qed.

(** C9: when [timer_sleep (n)], n > 0, returns, the interrupt level is the
    one at entry, which is INTR_ON.  The function has one exit path, through
    [intr_set_level (old_level)]; it is reached when the caller is switched
    to again: in the states [st1 :: sts] that follow the call, the first one
    in which the caller runs has the level of the call state. *)
Theorem timer_sleep_restores_interrupt_level (F : Z) (st : kernel) (n : Z)
  (st1 : kernel) (evs : list event) (sts pre : list kernel) (x : kernel)
  (post : list kernel) :
  0 < n ->
  timer_sleep n st = Some st1 ->
  trace F evs st1 = Some sts ->
  st1 :: sts = pre ++ x :: post ->
  Forall (fun y => thread_current y <> thread_current st) pre ->
  thread_current x = thread_current st ->
  level x = level st /\ level st = INTR_ON.
Proof.
  intros _ Hsleep Htr Hsplit Hpre Hx.
  destruct (timer_sleep_old_level n st st1 Hsleep) as (Hon & Hold & Hsame).
  split; [|exact Hon].
  destruct pre as [|p pre]; simpl in Hsplit; injection Hsplit as <- Hsts.
  - auto.
  - inversion Hpre; subst.
    eapply trace_resume; try eassumption. reflexivity.
Qed.

Lemma timer_sleep_restores_interrupt_level_witness :
  exists sts x,
    trace 100 [Tick; Tick; Yield] asleep = Some sts
    /\ last sts asleep = x
    /\ thread_current x = thread_current boot
    /\ level x = level boot /\ level boot = INTR_ON.
Proof.
  eexists. eexists.
  split; [vm_compute; reflexivity|].
  split; [reflexivity|].
  split; [reflexivity|].
  eapply (timer_sleep_restores_interrupt_level 100 boot 2 asleep
            [Tick; Tick; Yield] _ [asleep; _; _] _ []).
  - lia.
  - vm_compute; reflexivity.
  - vm_compute; reflexivity.
  - reflexivity.
  - repeat constructor; vm_compute; discriminate.
  - reflexivity.
Defined.

(** ** Sleeping for no time at all *)

Lemma timer_sleep_blocks (n : Z) (st st1 : kernel) :
  timer_sleep n st = Some st1 ->
  hd (idle_thread st) (ready_list st) <> thread_current st ->
  status_of st1 (thread_current st) = Some THREAD_BLOCKED
  /\ thread_current st1 = hd (idle_thread st) (ready_list st).
Proof.
  intros H Hnext. apply timer_sleep_Some in H. destruct H as (_ & Hrun & H).
  apply schedule_Some in H. destruct H as (t & _ & ->).
  unfold thread_current in *. simpl. split; [|reflexivity].
  unfold status_of in *. simpl.
  rewrite find_thread_update_thread_other by (auto; reflexivity).
  rewrite !find_thread_update_thread_same by reflexivity.
  destruct (find_thread (running_thread st) (all_list st));
    [reflexivity | discriminate].
Qed.

Lemma timer_sleep_nonpositive_effect (F : Z) (st : kernel) (n : Z)
  (st1 : kernel) :
  n <= 0 ->
  in_int64 (ticks st + n) ->
  in_int64 (ticks st + 1) ->
  wake_sorted (sleeping_threads st) ->
  ~ In (thread_current st) (ready_list st) ->
  thread_current st <> idle_thread st ->
  timer_sleep n st = Some st1 ->
  In (sleep_record n st) (sleeping_threads st1)
  /\ ticks_till_release (sleep_record n st) = ticks st + n
  /\ status_of st1 (thread_current st) = Some THREAD_BLOCKED
  /\ thread_current st1 <> thread_current st
  /\ (forall st2,
        step F Tick st1 = Some st2 ->
        ~ In (sleep_record n st) (sleeping_threads st2)
        /\ status_of st2 (thread_current st) = Some THREAD_READY).
Proof.
  intros Hn Hfit Hfit1 Hs Hrdy Hidle Hsleep.
  assert (Hnext : hd (idle_thread st) (ready_list st) <> thread_current st).
  { destruct (ready_list st) as [|u l]; simpl in *; [congruence|].
    intros ->. tauto. }
  destruct (timer_sleep_blocks n st st1 Hsleep Hnext) as [Hblk Hcur].
  destruct (timer_sleep_sleeping_threads n st st1 Hsleep) as [Hlist Htk].
  assert (Hin : In (sleep_record n st) (sleeping_threads st1))
    by (rewrite Hlist; apply list_insert_ordered_In; auto).
  assert (Hwake : ticks_till_release (sleep_record n st) = ticks st + n)
    by (simpl; apply wrap64_id; assumption).
  assert (Hs1 : wake_sorted (sleeping_threads st1))
    by (rewrite Hlist; apply wake_sorted_insert; assumption).
  split; [exact Hin|]. split; [exact Hwake|]. split; [exact Hblk|].
  split; [congruence|].
  intros st2 Hstep.
  simpl in Hstep. assert_inv Hstep. bind_inv Hstep. injection Hstep as <-.
  apply timer_interrupt_Some in E0.
  destruct E0 as (_ & woken & _ & Htk2 & Hw & _ & Hhd & _ & _ & Hwst & _).
  simpl in Htk2, Hw, Hwst.
  rewrite Htk, wrap64_id in Htk2 by assumption.
  assert (Hrest : Forall (fun r => ticks k < ticks_till_release r)
                    (sleeping_threads k)).
  { apply wake_sorted_tail_future; [|exact Hhd].
    rewrite Hw in Hs1. eapply wake_sorted_app_inv; exact Hs1. }
  assert (Hnot : ~ In (sleep_record n st) (sleeping_threads k)).
  { intros Hk. rewrite Forall_forall in Hrest. specialize (Hrest _ Hk). lia. }
  split; [exact Hnot|].
  rewrite Hw, in_app_iff in Hin. destruct Hin as [Hin|Hin]; [|tauto].
  apply (Hwst _ Hin).
Qed.

(** C2, as the code has it: [timer_sleep (n)] with n <= 0 does not return at
    once.  Like any other call (made with interrupts on by the running
    thread, which is neither in the ready queue nor the idle thread) it puts
    a record for the caller into the sleep list, with wake tick s + n, which
    is not after the current tick s, and blocks the caller, another thread
    being switched to; the next timer interrupt takes the record out again
    and unblocks the caller. *)
Theorem timer_sleep_nonpositive_blocks_until_next_tick (F : Z)
  (st : kernel) (n : Z) :
  n <= 0 ->
  in_int64 (ticks st + n) ->
  in_int64 (ticks st + 1) ->
  wake_sorted (sleeping_threads st) ->
  ~ In (thread_current st) (ready_list st) ->
  thread_current st <> idle_thread st ->
  may_sleep st ->
  exists st1,
    timer_sleep n st = Some st1
    /\ In (sleep_record n st) (sleeping_threads st1)
    /\ ticks_till_release (sleep_record n st) = ticks st + n
    /\ status_of st1 (thread_current st) = Some THREAD_BLOCKED
    /\ thread_current st1 <> thread_current st
    /\ (forall st2,
          step F Tick st1 = Some st2 ->
          ~ In (sleep_record n st) (sleeping_threads st2)
          /\ status_of st2 (thread_current st) = Some THREAD_READY).
Proof.
  intros Hn Hfit Hfit1 Hs Hrdy Hidle Hmay.
  destruct (timer_sleep_total n st Hmay) as [st1 Hst1].
  exists st1. split; [exact Hst1|].
  apply (timer_sleep_nonpositive_effect F st n st1); assumption.
Qed.

Lemma timer_sleep_nonpositive_blocks_until_next_tick_witness :
  may_sleep boot
  /\ exists st1,
       timer_sleep 0 boot = Some st1
       /\ In (sleep_record 0 boot) (sleeping_threads st1)
       /\ ticks_till_release (sleep_record 0 boot) = ticks boot + 0
       /\ status_of st1 (thread_current boot) = Some THREAD_BLOCKED
       /\ thread_current st1 <> thread_current boot
       /\ (forall st2,
             step 100 Tick st1 = Some st2 ->
             ~ In (sleep_record 0 boot) (sleeping_threads st2)
             /\ status_of st2 (thread_current boot) = Some THREAD_READY).
Proof.
  assert (Hmay : may_sleep boot).
  { split; [reflexivity|]. split; [reflexivity|]. simpl. discriminate. }
  split; [exact Hmay|].
  apply (timer_sleep_nonpositive_blocks_until_next_tick 100 boot 0).
  - lia.
  - unfold in_int64, INT64_MIN, INT64_MAX. simpl. lia.
  - unfold in_int64, INT64_MIN, INT64_MAX. simpl. lia.
  - constructor.
  - simpl. intros [H|[]]. discriminate H.
  - discriminate.
  - exact Hmay.
Defined.

Lemma timer_sleep_zero_is_not_a_no_op :
  exists st1,
    0 <= 0
    /\ timer_sleep 0 boot = Some st1
    /\ sleeping_threads boot = []
    /\ sleeping_threads st1 = [mk_sleeping_thread 1 0]
    /\ status_of boot (thread_current boot) = Some THREAD_RUNNING
    /\ status_of st1 (thread_current boot) = Some THREAD_BLOCKED
    /\ thread_current st1 <> thread_current boot
    /\ st1 <> boot.
Proof.
  eexists.
  split; [lia|].
  split; [vm_compute; reflexivity|].
  repeat (split; [reflexivity|]).
  split; discriminate.
Qed.

(** ** Fixed-point conversions *)

(** C10, as the code has it: for n with n * 16384 in the range of a 32-bit
    signed integer, converting n to fixed point and back gives n again when
    rounding toward zero, and when rounding to nearest for every such n but
    -131072, the one where x - 8192 leaves the 32-bit range. *)
Theorem int_fixed_point_round_trip (n : Z) :
  in_int32 (n * FIXED_POINT_FACTOR) ->
  convert_fixed_point_to_int_round_towards_zero (convert_int_to_fixed_point n)
  = n
  /\ (n <> -131072 ->
      convert_fixed_point_to_int_round_to_nearest (convert_int_to_fixed_point n)
      = n).
Proof.
  intros H. split.
  - apply round_towards_zero_of_int. exact H.
  - apply round_to_nearest_of_int. exact H.
Qed.

Lemma int_fixed_point_round_trip_witness :
  in_int32 (-5 * FIXED_POINT_FACTOR)
  /\ convert_fixed_point_to_int_round_towards_zero
       (convert_int_to_fixed_point (-5)) = -5
  /\ (-5 <> -131072 ->
      convert_fixed_point_to_int_round_to_nearest
        (convert_int_to_fixed_point (-5)) = -5).
Proof.
  assert (H : in_int32 (-5 * FIXED_POINT_FACTOR))
    by (unfold in_int32, INT32_MIN, INT32_MAX, FIXED_POINT_FACTOR; lia).
  split; [exact H | exact (int_fixed_point_round_trip (-5) H)].
Defined.

Lemma round_to_nearest_overflows_at_minimum :
  in_int32 (-131072 * FIXED_POINT_FACTOR)
  /\ convert_int_to_fixed_point (-131072) = INT32_MIN
  /\ convert_fixed_point_to_int_round_to_nearest
       (convert_int_to_fixed_point (-131072)) = 131071
  /\ convert_fixed_point_to_int_round_to_nearest
       (convert_int_to_fixed_point (-131072)) <> -131072.
Proof.
  split; [unfold in_int32, INT32_MIN, INT32_MAX, FIXED_POINT_FACTOR; lia|].
  split; [reflexivity|]. split; [reflexivity|].
  vm_compute. discriminate.
Qed.

(** ** MLFQS duties *)

Lemma count_fold (p : thread -> bool) (l : list thread) :
  forall acc,
    0 <= acc ->
    acc + Z.of_nat (length (filter p l)) <= INT32_MAX ->
    fold_left (fun a t => if p t then wrap32 (a + 1) else a) l acc
    = acc + Z.of_nat (length (filter p l)).
Proof.
  induction l as [|x l IH]; intros acc Hacc Hmax; simpl in *; [lia|].
  destruct (p x); simpl in *.
  - rewrite wrap32_id
      by (unfold in_int32, INT32_MIN, INT32_MAX in *; lia).
    rewrite IH; lia.
  - apply IH; assumption.
Qed.

Lemma count_is_ready_threads (st : kernel) :
  ready_threads st <= INT32_MAX ->
  count_running_or_ready_threads1 st = ready_threads st.
Proof.
  intros H.
  unfold count_running_or_ready_threads1, thread_foreach, get_all_list.
  unfold ready_threads in *.
  exact (count_fold _ (all_list st) 0 (Z.le_refl 0) H).
Qed.

Lemma Forall2_map_left {A B C : Type} (R : B -> C -> Prop) (f : A -> B)
  (l : list A) (l' : list C) :
  Forall2 R (map f l) l' -> Forall2 (fun x y => R (f x) y) l l'.
Proof.
  revert l'. induction l as [|x l IH]; simpl; intros l' H;
    inversion H; subst; constructor; auto.
Qed.

Lemma Forall2_impl {A B : Type} (R S : A -> B -> Prop) (l : list A)
  (l' : list B) :
  (forall x y, R x y -> S x y) -> Forall2 R l l' -> Forall2 S l l'.
Proof. intros HRS H. induction H; constructor; auto. Qed.

(** The thread structures and the load average after a timer interrupt. *)
Lemma timer_interrupt_threads (F : Z) (st st' : kernel) :
  timer_interrupt F st = Some st' ->
  ticks st' = wrap64 (ticks st + 1)
  /\ idle_thread st' = idle_thread st
  /\ LOAD_AVG st'
     = (if Z.rem (ticks st') F =? 0
        then next_load_avg (LOAD_AVG st) (count_running_or_ready_threads1 st)
        else LOAD_AVG st)
  /\ Forall2
       (fun t t' =>
          same_but_status
            (accounted_thread F st (LOAD_AVG st') (calculate_priority st') t)
            t')
       (all_list st) (all_list st').
Proof.
  intros H. apply timer_interrupt_Some in H.
  destruct H as (sm & woken & Hacc & Htk & _ & _ & _ & Hg & Hall & _).
  pose proof (timer_interrupt_accounting_frame F st sm Hacc)
    as (_ & _ & _ & _ & Hidle & _).
  apply timer_interrupt_accounting_spec in Hacc. destruct Hacc as [HL Hl].
  destruct Hg as (_ & HL' & Hrun' & Hidle' & _).
  assert (Hp : calculate_priority sm = calculate_priority st').
  { apply calculate_priority_ext; [symmetry; exact Hrun'|].
    eapply Forall2_impl; [|exact Hall].
    intros x y (A & _ & B & C & _). auto. }
  split; [exact Htk|]. split; [congruence|].
  rewrite Htk, HL'. split; [exact HL|].
  apply Forall2_map_left. rewrite <- Hp, <- Hl. exact Hall.
Qed.


Lemma accounted_thread_fields (F : Z) (st : kernel) (L p : Z)
  (t : thread) :
  tid (accounted_thread F st L p t) = tid t
  /\ nice_value (accounted_thread F st L p t) = nice_value t
  /\ recent_cpu (accounted_thread F st L p t)
     = (if Z.rem (wrap64 (ticks st + 1)) F =? 0
        then decayed_recent_cpu L (charged_recent_cpu st t) (nice_value t)
        else charged_recent_cpu st t)
  /\ priority (accounted_thread F st L p t)
     = (if (Z.rem (wrap64 (ticks st + 1)) 4 =? 0)
           && negb (tid t =? idle_thread st)
        then p
        else priority t).
Proof.
  unfold accounted_thread.
  set (now := wrap64 (ticks st + 1)).
  set (t1 := set_recent_cpu (charged_recent_cpu st t) t).
  set (t2 := if Z.rem now F =? 0 then _ else t1).
  assert (H2 : tid t2 = tid t /\ nice_value t2 = nice_value t
               /\ priority t2 = priority t
               /\ recent_cpu t2
                  = (if Z.rem now F =? 0
                     then decayed_recent_cpu L (charged_recent_cpu st t)
                            (nice_value t)
                     else charged_recent_cpu st t)).
  { subst t2 t1. destruct (Z.rem now F =? 0);
      cbn [tid nice_value recent_cpu priority set_recent_cpu];
      repeat (split; [reflexivity|]); reflexivity. }
  destruct H2 as (B1 & B2 & B3 & B4). clearbody t2.
  destruct (Z.rem now 4 =? 0); cbn [andb].
  - rewrite B1. destruct (tid t =? idle_thread st); cbn [negb].
    + split; [exact B1|]. split; [exact B2|]. split; [exact B4 | exact B3].
    + cbn [tid nice_value recent_cpu priority set_priority].
      split; [exact B1|]. split; [exact B2|]. split; [exact B4|].
      reflexivity.
  - split; [exact B1|]. split; [exact B2|]. split; [exact B4 | exact B3].
Qed.

(** The fields of a thread structure after a timer interrupt, but for
    [status]. *)
Lemma timer_interrupt_thread_fields (F : Z) (st st' : kernel) :
  timer_interrupt F st = Some st' ->
  Forall2
    (fun t t' =>
       tid t' = tid t
       /\ nice_value t' = nice_value t
       /\ recent_cpu t'
          = (if Z.rem (ticks st') F =? 0
             then decayed_recent_cpu (LOAD_AVG st') (charged_recent_cpu st t)
                    (nice_value t)
             else charged_recent_cpu st t)
       /\ priority t'
          = (if (Z.rem (ticks st') 4 =? 0) && negb (tid t =? idle_thread st)
             then calculate_priority st'
             else priority t))
    (all_list st) (all_list st').
Proof.
  intros H. apply timer_interrupt_threads in H.
  destruct H as (Htk & _ & _ & Hall). rewrite Htk.
  eapply Forall2_impl; [|exact Hall]. clear Hall.
  intros t t' (Htid & Hpri & Hnice & Hrc & _).
  destruct (accounted_thread_fields F st (LOAD_AVG st')
              (calculate_priority st') t)
    as (A1 & A2 & A3 & A4).
  split; [congruence|]. split; [congruence|]. split; [congruence|].
  rewrite Hpri, A4. reflexivity.
Qed.


Lemma loaded_interrupt_ready : interrupt_ready 100 loaded.
Proof.
  split.
  - intros _ _. vm_compute. discriminate.
  - split; constructor.
Defined.




Lemma load_avg_after_interrupt (F : Z) (st st' : kernel) :
  timer_interrupt F st = Some st' ->
  Z.rem (wrap64 (ticks st + 1)) F = 0 ->
  ready_threads st <= INT32_MAX ->
  LOAD_AVG st' = next_load_avg (LOAD_AVG st) (ready_threads st).
Proof.
  intros H Hsec Hcount. apply timer_interrupt_threads in H.
  destruct H as (Htk & _ & HL & _).
  rewrite Htk, Hsec, Z.eqb_refl in HL.
  rewrite count_is_ready_threads in HL by assumption. exact HL.
Qed.

(** C6: on every timer interrupt that brings the tick counter to a multiple
    of TIMER_FREQ, LOAD_AVG is assigned (59/60) * LOAD_AVG + (1/60) *
    ready_threads, evaluated with the 17.14 fixed-point operations (59/60
    is 16110 and 1/60 is 273 there), where ready_threads is the number of
    threads that are RUNNING or READY, the idle thread left out.  (The
    threads are counted in a 32-bit int.) *)
Theorem load_avg_updated_every_second (F : Z) (st : kernel) :
  interrupt_ready F st ->
  Z.rem (wrap64 (ticks st + 1)) F = 0 ->
  ready_threads st <= INT32_MAX ->
  exists st',
    timer_interrupt F st = Some st'
    /\ ticks st' = wrap64 (ticks st + 1)
    /\ LOAD_AVG st'
       = add_fixed_point_numbers
           (multiply_fixed_point_numbers
              (fixed_point_quotient (convert_int_to_fixed_point 59)
                 (convert_int_to_fixed_point 60))
              (LOAD_AVG st))
           (multiply_fixed_point_number_by_int
              (fixed_point_quotient (convert_int_to_fixed_point 1)
                 (convert_int_to_fixed_point 60))
              (ready_threads st))
    /\ LOAD_AVG st'
       = wrap32 (wrap32 (Z.quot (16110 * LOAD_AVG st) 16384)
                 + wrap32 (273 * ready_threads st)).
Proof.
  intros Hready Hsec Hcount.
  destruct (timer_interrupt_total F st Hready) as [st' Hst'].
  exists st'. split; [exact Hst'|].
  pose proof (timer_interrupt_threads F st st' Hst') as (Htk & _).
  split; [exact Htk|].
  pose proof (load_avg_after_interrupt F st st' Hst' Hsec Hcount) as HL.
  split; exact HL.
Qed.

Lemma load_avg_updated_every_second_witness :
  interrupt_ready 100 loaded
  /\ Z.rem (wrap64 (ticks loaded + 1)) 100 = 0
  /\ ready_threads loaded = 2
  /\ exists st',
       timer_interrupt 100 loaded = Some st'
       /\ ticks st' = wrap64 (ticks loaded + 1)
       /\ LOAD_AVG st'
          = add_fixed_point_numbers
              (multiply_fixed_point_numbers
                 (fixed_point_quotient (convert_int_to_fixed_point 59)
                    (convert_int_to_fixed_point 60))
                 (LOAD_AVG loaded))
              (multiply_fixed_point_number_by_int
                 (fixed_point_quotient (convert_int_to_fixed_point 1)
                    (convert_int_to_fixed_point 60))
                 (ready_threads loaded))
       /\ LOAD_AVG st'
          = wrap32 (wrap32 (Z.quot (16110 * LOAD_AVG loaded) 16384)
                    + wrap32 (273 * ready_threads loaded)).
Proof.
  split; [exact loaded_interrupt_ready|].
  split; [reflexivity|]. split; [reflexivity|].
  apply (load_avg_updated_every_second 100 loaded loaded_interrupt_ready).
  - reflexivity.
  - vm_compute. discriminate.
Defined.

Lemma decayed_recent_cpu_closed_form (L r n : Z) :
  decayed_recent_cpu L r n
  = wrap32
      (wrap32
         (Z.quot
            (wrap32
               (Z.quot (wrap32 (Z.quot (L * 32768) 16384) * 16384)
                  (wrap32 (wrap32 (Z.quot (L * 32768) 16384) + 16384)))
             * r)
            16384)
       + wrap32 (n * 16384)).
Proof. reflexivity. Qed.

(** C7: on every timer interrupt the recent_cpu of the running thread grows
    by one in fixed point (16384), unless the running thread is the idle
    thread, and no other thread is charged; if the tick counter is then a
    multiple of TIMER_FREQ, the recent_cpu of every thread is replaced by
    (2 * load_avg) / (2 * load_avg + 1) * recent_cpu + nice, evaluated in
    17.14 fixed point on the load average just updated: with
    twice = load_avg * 32768 / 16384 and
    coefficient = twice * 16384 / (twice + 16384), each cut to 32 bits, it
    is coefficient * recent_cpu / 16384 + nice * 16384. *)
Theorem recent_cpu_charged_and_decayed (F : Z) (st : kernel) :
  interrupt_ready F st ->
  exists st',
    timer_interrupt F st = Some st'
    /\ ticks st' = wrap64 (ticks st + 1)
    /\ Forall2
         (fun t t' =>
            tid t' = tid t
            /\ nice_value t' = nice_value t
            /\ recent_cpu t'
               = let charged :=
                   if (tid t =? thread_current st)
                      && negb (thread_current st =? get_idle_thread st)
                   then wrap32 (recent_cpu t + 16384)
                   else recent_cpu t in
                 if Z.rem (ticks st') F =? 0
                 then
                   let twice := wrap32 (Z.quot (LOAD_AVG st' * 32768) 16384) in
                   let coefficient :=
                     wrap32 (Z.quot (twice * 16384) (wrap32 (twice + 16384))) in
                   wrap32 (wrap32 (Z.quot (coefficient * charged) 16384)
                           + wrap32 (nice_value t * 16384))
                 else charged)
         (all_list st) (all_list st').
Proof.
  intros Hready. destruct (timer_interrupt_total F st Hready) as [st' Hst'].
  exists st'. split; [exact Hst'|].
  pose proof (timer_interrupt_threads F st st' Hst') as (Htk & _).
  split; [exact Htk|].
  apply timer_interrupt_thread_fields in Hst'.
  eapply Forall2_impl; [|exact Hst'].
  intros t t' (Htid & Hnice & Hrc & _).
  split; [exact Htid|]. split; [exact Hnice|].
  rewrite decayed_recent_cpu_closed_form in Hrc. exact Hrc.
Qed.

Lemma recent_cpu_charged_and_decayed_witness :
  interrupt_ready 100 loaded
  /\ map recent_cpu (all_list loaded) = [32768; 0; 0]
  /\ LOAD_AVG loaded = 16384
  /\ exists st',
       timer_interrupt 100 loaded = Some st'
       /\ ticks st' = wrap64 (ticks loaded + 1)
       /\ Forall2
            (fun t t' =>
               tid t' = tid t
               /\ nice_value t' = nice_value t
               /\ recent_cpu t'
                  = let charged :=
                      if (tid t =? thread_current loaded)
                         && negb (thread_current loaded
                                  =? get_idle_thread loaded)
                      then wrap32 (recent_cpu t + 16384)
                      else recent_cpu t in
                    if Z.rem (ticks st') 100 =? 0
                    then
                      let twice :=
                        wrap32 (Z.quot (LOAD_AVG st' * 32768) 16384) in
                      let coefficient :=
                        wrap32 (Z.quot (twice * 16384)
                                  (wrap32 (twice + 16384))) in
                      wrap32 (wrap32 (Z.quot (coefficient * charged) 16384)
                              + wrap32 (nice_value t * 16384))
                    else charged)
            (all_list loaded) (all_list st').
Proof.
  split; [exact loaded_interrupt_ready|]. split; [reflexivity|].
  split; [reflexivity|].
  exact (recent_cpu_charged_and_decayed 100 loaded loaded_interrupt_ready).
Defined.







(** ** The scheduler invariants along an execution *)

Lemma status_of_set_old_level (st : kernel) (l : list thread) (t u : Z)
  (v : intr_level) :
  status_of (set_all_list (update_thread u (set_old_level v) l) st) t
  = status_of (set_all_list l st) t.
Proof.
  unfold status_of. simpl. destruct (Z.eq_dec t u) as [->|Hne].
  - rewrite find_thread_update_thread_same by reflexivity.
    destruct (find_thread u l); reflexivity.
  - rewrite find_thread_update_thread_other by (auto; reflexivity).
    reflexivity.
Qed.

Lemma status_of_update_status (st : kernel) (l : list thread) (t u : Z)
  (s : thread_status) :
  status_of (set_all_list (update_thread u (set_status s) l) st) t
  = if t =? u then option_map (fun _ => s) (status_of (set_all_list l st) t)
    else status_of (set_all_list l st) t.
Proof.
  unfold status_of. simpl. destruct (Z.eqb_spec t u) as [->|Hne].
  - rewrite find_thread_update_thread_same by reflexivity.
    destruct (find_thread u l); reflexivity.
  - rewrite find_thread_update_thread_other by (auto; reflexivity).
    reflexivity.
Qed.

Lemma NoDup_list_insert_ordered {A : Type} (less : A -> A -> bool) (x : A)
  (l : list A) :
  NoDup l -> ~ In x l -> NoDup (list_insert_ordered less x l).
Proof.
  intros Hnd Hin.
  destruct (list_insert_ordered_split less x l)
    as (before & after & Hl & -> & _).
  subst l. apply (NoDup_Add (Add_app x before after)). auto.
Qed.

(** What [schedule] does to the scheduler invariants, in terms of the
    state it starts from. *)
Lemma schedule_wf (y y' : kernel) :
  schedule y = Some y' ->
  NoDup (ready_list y) ->
  Forall (fun t => status_of y t = Some THREAD_READY) (ready_list y) ->
  status_of y' (thread_current y') = Some THREAD_RUNNING
  /\ NoDup (ready_list y')
  /\ Forall (fun t => status_of y' t = Some THREAD_READY) (ready_list y')
  /\ sleeping_threads y' = sleeping_threads y
  /\ idle_thread y' = idle_thread y
  /\ thread_current y' = hd (idle_thread y) (ready_list y)
  /\ (forall t, t <> thread_current y' -> status_of y' t = status_of y t).
Proof.
  intros H Hnd Hrdy. apply schedule_Some in H. destruct H as (t & Hfind & ->).
  set (next := hd (idle_thread y) (ready_list y)) in *.
  assert (Hst : forall u,
             status_of
               (intr_set_level (old_level t)
                  (set_all_list
                     (update_thread next (set_status THREAD_RUNNING)
                        (all_list y))
                     (set_running_thread next
                        (set_ready_list (tl (ready_list y)) y)))) u
             = if u =? next then Some THREAD_RUNNING else status_of y u).
  { intros u.
    pose proof (status_of_update_status y (all_list y) u next THREAD_RUNNING)
      as E.
    unfold status_of in *.
    cbn [all_list set_all_list intr_set_level set_running_thread
         set_ready_list] in *.
    rewrite E.
    destruct (Z.eqb_spec u next) as [Heq|]; [|reflexivity].
    rewrite Heq, Hfind. reflexivity. }
  unfold thread_current. cbn [running_thread ready_list sleeping_threads
    idle_thread intr_set_level set_all_list set_running_thread set_ready_list].
  split; [rewrite Hst, Z.eqb_refl; reflexivity|].
  assert (Htl : NoDup (tl (ready_list y))
                /\ Forall (fun u => u <> next /\ In u (ready_list y))
                     (tl (ready_list y))).
  { subst next. destruct (ready_list y) as [|a l]; simpl.
    - split; constructor.
    - inversion Hnd; subst. split; [assumption|].
      apply Forall_forall. intros u Hu. split; [|auto].
      intros ->. contradiction. }
  destruct Htl as [Hnd' Htl].
  split; [exact Hnd'|]. split.
  - rewrite Forall_forall in *. intros u Hu.
    destruct (Htl u Hu) as [Hne Hin]. rewrite Hst.
    destruct (Z.eqb_spec u next); [contradiction | auto].
  - split; [reflexivity|]. split; [reflexivity|]. split; [reflexivity|].
    intros u Hu. rewrite Hst.
    destruct (Z.eqb_spec u next); [contradiction | reflexivity].
Qed.

Lemma wake_sleeping_threads_ready (l : list sleeping_thread) :
  forall st st',
    wake_sleeping_threads l st = Some st' ->
    NoDup (ready_list st) ->
    Forall (fun t => status_of st t = Some THREAD_READY) (ready_list st) ->
    NoDup (ready_list st')
    /\ Forall (fun t => status_of st' t = Some THREAD_READY) (ready_list st').
Proof.
  induction l as [|r l IH]; intros st st' H Hnd Hrdy; simpl in H.
  - injection H as <-. auto.
  - destruct (ticks_till_release r <=? ticks st); [|injection H as <-; auto].
    bind_inv H. rename k into st1.
    pose proof (fun u => thread_unblock_status _ u _ _ E) as Hst1.
    unfold thread_unblock in E. assert_inv E. injection E as E.
    apply has_status_true in E0.
    assert (Hnotin : ~ In (current_thread r) (ready_list st)).
    { intros Hin. rewrite Forall_forall in Hrdy.
      specialize (Hrdy _ Hin).
      change (status_of st (current_thread r) = Some THREAD_BLOCKED) in E0.
      congruence. }
    apply (IH st1 st' H).
    + rewrite <- E. cbn [ready_list set_ready_list].
      apply NoDup_list_insert_ordered; assumption.
    + apply Forall_forall. intros x Hx. rewrite Hst1.
      destruct (Z.eqb_spec x (current_thread r)); [reflexivity|].
      rewrite <- E in Hx. cbn [ready_list set_ready_list] in Hx.
      apply list_insert_ordered_In in Hx. destruct Hx as [Hx|Hx];
        [contradiction|].
      rewrite Forall_forall in Hrdy. apply (Hrdy x Hx).
Qed.

Lemma timer_interrupt_wf (F : Z) (st st' : kernel) :
  timer_interrupt F st = Some st' -> scheduler_wf st -> scheduler_wf st'.
Proof.
  intros H (Hrun & Hnd & Hrdy & (Hsnd & Hsblk) & Hidle).
  pose proof H as H0. rewrite timer_interrupt_split in H0. bind_inv H0.
  rename k into sm.
  pose proof (fun t => timer_interrupt_accounting_status F st sm t E) as Hst.
  pose proof (timer_interrupt_accounting_frame F st sm E)
    as (_ & _ & Hrl & _).
  destruct (wake_sleeping_threads_ready _ sm st' H0) as [Hnd' Hrdy'].
  { rewrite Hrl. exact Hnd. }
  { rewrite Hrl. eapply Forall_impl; [|exact Hrdy].
    intros t Ht. cbv beta. rewrite Hst. exact Ht. }
  apply timer_interrupt_Some in H.
  destruct H as (sm' & woken & Hacc & _ & Hw & _ & _ & Hg & _ & Hwst & Hoth & _).
  assert (Hsm : sm' = sm) by congruence. subst sm'.
  pose proof (timer_interrupt_accounting_frame F st sm Hacc)
    as (_ & _ & _ & Hcur & Hid & _).
  destruct Hg as (_ & _ & Hcur' & Hid' & _).
  unfold scheduler_wf, sleepers_blocked, thread_current in *.
  rewrite Hw, map_app in Hsnd, Hidle. rewrite Hw in Hsblk.
  assert (Hdisj : forall r, In r (sleeping_threads st') ->
             ~ In (current_thread r) (map current_thread woken)).
  { intros r Hr Hin. revert Hsnd. clear - Hr Hin.
    induction woken as [|w woken IH]; simpl in *; [contradiction|].
    intros Hnd. inversion Hnd as [|? ? Hn Hnd']; subst.
    destruct Hin as [Heq|Hin]; [|auto].
    apply Hn. rewrite Heq. apply in_or_app. right. apply in_map. exact Hr. }
  split.
  { rewrite Hcur', Hcur, Hoth; [exact Hrun|].
    intros Hin. apply in_map_iff in Hin. destruct Hin as (r & Hr & Hin).
    destruct (Hwst r Hin) as [Hb _]. rewrite Hr in Hb. congruence. }
  split; [exact Hnd'|]. split; [exact Hrdy'|]. split; [split|].
  - clear - Hsnd. induction woken as [|w woken IH]; simpl in *; [exact Hsnd|].
    inversion Hsnd; subst. auto.
  - apply Forall_app in Hsblk. destruct Hsblk as [_ Hsblk].
    rewrite Forall_forall in *. intros r Hr.
    rewrite (Hoth _ (Hdisj r Hr)). auto.
  - rewrite Hid', Hid. intros Hin. apply Hidle. apply in_or_app. auto.
Qed.

Lemma sleep_or_yield_wf (st y st' : kernel) (s : thread_status)
  (recs : list sleeping_thread) (rdy : list Z) (v : intr_level) :
  scheduler_wf st ->
  y = set_ready_list rdy
        (set_sleeping_threads recs
           (set_all_list
              (update_thread (thread_current st) (set_status s)
                 (update_thread (thread_current st) (set_old_level v)
                    (all_list st)))
              (intr_disable st))) ->
  schedule y = Some st' ->
  (s = THREAD_BLOCKED /\ rdy = ready_list st
   /\ (forall r, In r recs ->
         current_thread r = thread_current st \/ In r (sleeping_threads st))
   /\ NoDup (map current_thread recs)
   /\ thread_current st <> idle_thread st)
  \/ (s = THREAD_READY /\ recs = sleeping_threads st
      /\ NoDup rdy
      /\ (forall t, In t rdy <-> t = thread_current st \/ In t (ready_list st))) ->
  scheduler_wf st'.
Proof.
  intros (Hrun & Hnd & Hrdy & (Hsnd & Hsblk) & Hidle) Hy Hsched Hcase.
  assert (Hsty : forall t,
             status_of y t
             = if t =? thread_current st then Some s else status_of st t).
  { intros t. subst y.
    pose proof (status_of_update_status st
                  (update_thread (thread_current st) (set_old_level v)
                     (all_list st)) t (thread_current st) s) as E1.
    pose proof (status_of_set_old_level st (all_list st) t
                  (thread_current st) v) as E2.
    unfold status_of, intr_disable in *.
    cbn [all_list set_all_list set_ready_list set_sleeping_threads
         intr_set_level] in *.
    rewrite E1, E2.
    destruct (Z.eqb_spec t (thread_current st)) as [Heq|]; [|reflexivity].
    rewrite Heq.
    destruct (find_thread (thread_current st) (all_list st));
      [reflexivity | discriminate]. }
  assert (Hcur_not_ready : ~ In (thread_current st) (ready_list st)).
  { intros Hin. rewrite Forall_forall in Hrdy. specialize (Hrdy _ Hin).
    congruence. }
  assert (Hcur_not_sleeper :
            ~ In (thread_current st) (map current_thread (sleeping_threads st))).
  { intros Hin. apply in_map_iff in Hin. destruct Hin as (r & Hr & Hin).
    rewrite Forall_forall in Hsblk. specialize (Hsblk _ Hin).
    rewrite Hr in Hsblk. congruence. }
  assert (Hyr : ready_list y = rdy) by (subst y; reflexivity).
  assert (Hys : sleeping_threads y = recs) by (subst y; reflexivity).
  assert (Hyi : idle_thread y = idle_thread st) by (subst y; reflexivity).
  assert (Hnd_y : NoDup (ready_list y)).
  { rewrite Hyr. destruct Hcase as [(_ & -> & _)|(_ & _ & Hn & _)]; assumption. }
  assert (Hrdy_y : Forall (fun t => status_of y t = Some THREAD_READY)
                     (ready_list y)).
  { rewrite Hyr. apply Forall_forall. intros t Ht. rewrite Hsty.
    rewrite Forall_forall in Hrdy.
    destruct Hcase as [(_ & -> & _)|(-> & _ & _ & Hmem)].
    - destruct (Z.eqb_spec t (thread_current st)) as [->|];
        [contradiction | auto].
    - destruct (Z.eqb_spec t (thread_current st)); [reflexivity|].
      apply Hmem in Ht. destruct Ht; [contradiction | auto]. }
  destruct (schedule_wf y st' Hsched Hnd_y Hrdy_y)
    as (Hrun' & Hnd' & Hrdy' & Hsl' & Hid' & Hnext & Hoth).
  unfold scheduler_wf, sleepers_blocked.
  split; [exact Hrun'|]. split; [exact Hnd'|]. split; [exact Hrdy'|].
  rewrite Hsl', Hys, Hid', Hyi.
  assert (Hnext_not_sleeper :
            ~ In (thread_current st') (map current_thread recs)).
  { rewrite Hnext, Hyr, Hyi. intros Hin.
    apply in_map_iff in Hin. destruct Hin as (r & Hr & Hin).
    destruct Hcase as [(-> & -> & Hmem & _ & Hni)|(-> & -> & _ & Hmem)].
    - assert (Hnr : hd (idle_thread st) (ready_list st) <> thread_current st).
      { destruct (ready_list st) as [|a l]; simpl in *; [congruence|].
        intros ->. tauto. }
      apply Hmem in Hin. destruct Hin as [Hc|Hin]; [congruence|].
      destruct (ready_list st) as [|a l] eqn:El; simpl in Hr.
      + apply Hidle. rewrite <- Hr. apply in_map. exact Hin.
      + rewrite Forall_forall in Hsblk, Hrdy. specialize (Hsblk _ Hin).
        specialize (Hrdy a (or_introl eq_refl)). rewrite Hr in Hsblk.
        congruence.
    - destruct rdy as [|a l]; simpl in Hr.
      + apply Hidle. rewrite <- Hr. apply in_map. exact Hin.
      + rewrite Forall_forall in Hsblk. specialize (Hsblk _ Hin).
        rewrite Hr in Hsblk.
        assert (Ha : a = thread_current st \/ In a (ready_list st))
          by (apply Hmem; simpl; auto).
        destruct Ha as [->|Ha]; [congruence|].
        rewrite Forall_forall in Hrdy. specialize (Hrdy _ Ha). congruence. }
  split; [split|].
  - destruct Hcase as [(_ & _ & _ & Hn & _)|(_ & -> & _)]; assumption.
  - apply Forall_forall. intros r Hr.
    rewrite Hoth
      by (intros Heq; apply Hnext_not_sleeper; rewrite <- Heq;
          apply in_map; exact Hr).
    rewrite Hsty.
    destruct Hcase as [(-> & _ & Hmem & _)|(-> & -> & _)].
    + destruct (Z.eqb_spec (current_thread r) (thread_current st));
        [reflexivity|].
      apply Hmem in Hr. destruct Hr as [Hc|Hr]; [contradiction|].
      rewrite Forall_forall in Hsblk. auto.
    + rewrite Forall_forall in Hsblk.
      destruct (Z.eqb_spec (current_thread r) (thread_current st)) as [Heq|].
      * exfalso. apply Hcur_not_sleeper. rewrite <- Heq. apply in_map.
        exact Hr.
      * auto.
  - destruct Hcase as [(_ & _ & Hmem & _ & Hni)|(_ & -> & _)]; [|exact Hidle].
    intros Hin. apply in_map_iff in Hin. destruct Hin as (r & Hr & Hin).
    apply Hmem in Hin. destruct Hin as [Hc|Hin]; [congruence|].
    apply Hidle. rewrite <- Hr. apply in_map. exact Hin.
Qed.

(** The scheduler invariants hold along every execution in which the idle
    thread does not call [timer_sleep]. *)
Lemma step_scheduler_wf (F : Z) (ev : event) (st st' : kernel) :
  scheduler_wf st -> not_idle_sleep ev st -> step F ev st = Some st' ->
  scheduler_wf st'.
Proof.
  intros Hwf Hni H. destruct ev; simpl in H.
  - assert_inv H. bind_inv H. injection H as <-.
    apply timer_interrupt_wf in E0; [exact E0|]. exact Hwf.
  - pose proof Hwf as (Hrun & Hnd & Hrdy & (Hsnd & Hsblk) & Hidle).
    apply timer_sleep_Some in H. destruct H as (Hon & _ & H).
    eapply (sleep_or_yield_wf st _ st' THREAD_BLOCKED
              (list_insert_ordered order_sleeping_threads (sleep_record n st)
                 (sleeping_threads st))
              (ready_list st) (level st)); [exact Hwf | | exact H |].
    + destruct st; reflexivity.
    + left. split; [reflexivity|]. split; [reflexivity|].
      assert (Hcur_not_sleeper :
                ~ In (thread_current st)
                    (map current_thread (sleeping_threads st))).
      { intros Hin. apply in_map_iff in Hin. destruct Hin as (r & Hr & Hin).
        rewrite Forall_forall in Hsblk. specialize (Hsblk _ Hin).
        rewrite Hr in Hsblk. congruence. }
      split; [|split; [|exact Hni]].
      * intros r. rewrite list_insert_ordered_In.
        intros [Hr|Hr]; [left; subst r; reflexivity | right; exact Hr].
      * destruct (list_insert_ordered_split order_sleeping_threads
                    (sleep_record n st) (sleeping_threads st))
          as (before & after & Hl & -> & _).
        rewrite Hl in Hsnd, Hcur_not_sleeper.
        rewrite map_app in *. simpl.
        apply (NoDup_Add (Add_app _ _ _)). auto.
  - pose proof Hwf as (Hrun & Hnd & Hrdy & _).
    unfold thread_yield in H.
    assert (Hcur_not_ready : ~ In (thread_current st) (ready_list st)).
    { intros Hin. rewrite Forall_forall in Hrdy. specialize (Hrdy _ Hin).
      congruence. }
    match type of H with
    | schedule (set_ready_list ?rdy _) = _ =>
        eapply (sleep_or_yield_wf st _ st' THREAD_READY (sleeping_threads st)
                  rdy (level st)); [exact Hwf | | exact H |]
    end.
    + destruct st; reflexivity.
    + right. split; [reflexivity|]. split; [reflexivity|].
      cbn [ready_list set_all_list intr_disable intr_set_level].
      split; [apply NoDup_list_insert_ordered; assumption|].
      intros t. apply list_insert_ordered_In.
Qed.

Lemma boot_scheduler_wf : scheduler_wf boot.
Proof.
  split; [reflexivity|].
  split; [repeat constructor; simpl; tauto|].
  split; [repeat constructor|].
  split; [split; constructor|].
  simpl. tauto.
Qed.

(** ** More on threads/fixed-point.h *)

Lemma wrap32_add_l (a b : Z) : wrap32 (wrap32 a + b) = wrap32 (a + b).
Proof.
  unfold wrap32, wrap.
  replace ((a + 2 ^ (32 - 1)) mod 2 ^ 32 - 2 ^ (32 - 1) + b + 2 ^ (32 - 1))
    with ((a + 2 ^ (32 - 1)) mod 2 ^ 32 + b) by ring.
  rewrite Zplus_mod_idemp_l. f_equal. f_equal. ring.
Qed.

Lemma wrap32_sub_l (a b : Z) : wrap32 (wrap32 a - b) = wrap32 (a - b).
Proof. unfold Z.sub. apply wrap32_add_l. Qed.

(** X1: fixed-point addition and subtraction undo each other for every
    32-bit [x] and every [y], also when the intermediate sum or difference
    wraps around; the same holds for adding and subtracting an integer. *)
Theorem add_subtract_fixed_point_inverse (x y n : Z) :
  in_int32 x ->
  subtract_fixed_point_numbers (add_fixed_point_numbers x y) y = x
  /\ add_fixed_point_numbers (subtract_fixed_point_numbers x y) y = x
  /\ subtract_int_from_fixed_point_number
       (add_int_to_fixed_point_number x n) n = x
  /\ add_int_to_fixed_point_number
       (subtract_int_from_fixed_point_number x n) n = x.
Proof.
  intros Hx.
  unfold subtract_fixed_point_numbers, add_fixed_point_numbers,
    subtract_int_from_fixed_point_number, add_int_to_fixed_point_number.
  rewrite !wrap32_sub_l, !wrap32_add_l.
  replace (x + y - y) with x by ring.
  replace (x - y + y) with x by ring.
  replace (x + convert_int_to_fixed_point n - convert_int_to_fixed_point n)
    with x by ring.
  replace (x - convert_int_to_fixed_point n + convert_int_to_fixed_point n)
    with x by ring.
  rewrite wrap32_id by assumption. tauto.
Qed.

Lemma add_subtract_fixed_point_inverse_witness :
  in_int32 INT32_MAX
  /\ add_fixed_point_numbers INT32_MAX 16384 = -2147467265
  /\ subtract_fixed_point_numbers (add_fixed_point_numbers INT32_MAX 16384)
       16384 = INT32_MAX.
Proof.
  assert (H : in_int32 INT32_MAX)
    by (unfold in_int32, INT32_MIN, INT32_MAX; lia).
  split; [exact H|]. split; [reflexivity|].
  exact (proj1 (add_subtract_fixed_point_inverse INT32_MAX 16384 0 H)).
Defined.

(** X2: fixed-point one, [convert_int_to_fixed_point (1)], is neutral for
    the fixed-point multiplication and division of every 32-bit [x]. *)
Theorem fixed_point_one_neutral (x : Z) :
  in_int32 x ->
  multiply_fixed_point_numbers x (convert_int_to_fixed_point 1) = x
  /\ multiply_fixed_point_numbers (convert_int_to_fixed_point 1) x = x
  /\ divide_fixed_point_numbers x (convert_int_to_fixed_point 1) = Some x.
Proof.
  intros Hx.
  change (convert_int_to_fixed_point 1) with 16384.
  unfold multiply_fixed_point_numbers, divide_fixed_point_numbers,
    fixed_point_quotient, FIXED_POINT_FACTOR.
  change (16384 =? 0) with false. cbv iota.
  rewrite (Z.mul_comm 16384 x), Z.quot_mul by lia.
  rewrite wrap32_id by assumption. tauto.
Qed.

Lemma fixed_point_one_neutral_witness :
  in_int32 (-12345)
  /\ multiply_fixed_point_numbers (-12345) (convert_int_to_fixed_point 1)
     = -12345
  /\ multiply_fixed_point_numbers (convert_int_to_fixed_point 1) (-12345)
     = -12345
  /\ divide_fixed_point_numbers (-12345) (convert_int_to_fixed_point 1)
     = Some (-12345).
Proof.
  assert (H : in_int32 (-12345))
    by (unfold in_int32, INT32_MIN, INT32_MAX; lia).
  split; [exact H | exact (fixed_point_one_neutral (-12345) H)].
Defined.

(** X3: away from the two ends of the 32-bit range, where x + 8192 or
    x - 8192 would wrap, [convert_fixed_point_to_int_round_to_nearest]
    returns an integer nearest to [x]: the two differ by at most one half,
    8192 in fixed point. *)
Theorem round_to_nearest_is_nearest (x : Z) :
  INT32_MIN + 8192 <= x <= INT32_MAX - 8192 ->
  Z.abs (x - convert_fixed_point_to_int_round_to_nearest x * FIXED_POINT_FACTOR)
  <= 8192.
Proof.
  intros Hx. unfold convert_fixed_point_to_int_round_to_nearest.
  unfold INT32_MIN, INT32_MAX, FIXED_POINT_FACTOR in *.
  change (Z.quot 16384 2) with 8192.
  destruct (Z.leb_spec 0 x) as [Hs|Hs].
  - rewrite wrap32_id by (unfold in_int32, INT32_MIN, INT32_MAX; lia).
    pose proof (Z.quot_rem' (x + 8192) 16384) as E.
    pose proof (Z.rem_bound_pos (x + 8192) 16384 ltac:(lia) ltac:(lia)).
    lia.
  - rewrite wrap32_id by (unfold in_int32, INT32_MIN, INT32_MAX; lia).
    pose proof (Z.quot_rem' (x - 8192) 16384) as E.
    pose proof (Z.rem_bound_pos (- (x - 8192)) 16384 ltac:(lia) ltac:(lia))
      as B.
    rewrite Z.rem_opp_l in B by lia. lia.
Qed.

Lemma round_to_nearest_is_nearest_witness :
  INT32_MIN + 8192 <= -24577 <= INT32_MAX - 8192
  /\ convert_fixed_point_to_int_round_to_nearest (-24577) = -2
  /\ Z.abs (-24577
            - convert_fixed_point_to_int_round_to_nearest (-24577)
              * FIXED_POINT_FACTOR) <= 8192.
Proof.
  assert (H : INT32_MIN + 8192 <= -24577 <= INT32_MAX - 8192)
    by (unfold INT32_MIN, INT32_MAX; lia).
  split; [exact H|]. split; [reflexivity|].
  exact (round_to_nearest_is_nearest (-24577) H).
Defined.

(** X4: on fixed-point numbers that stand for integers the multiplication
    is exact, and the division of a by b gives a * 16384 / b, the quotient
    a / b in fixed point, truncated; a zero divisor gives no result. *)
Theorem fixed_point_arithmetic_on_integers (a b : Z) :
  in_int32 (a * FIXED_POINT_FACTOR) ->
  in_int32 (b * FIXED_POINT_FACTOR) ->
  in_int32 (a * b * FIXED_POINT_FACTOR) ->
  multiply_fixed_point_numbers
    (convert_int_to_fixed_point a) (convert_int_to_fixed_point b)
  = convert_int_to_fixed_point (a * b)
  /\ divide_fixed_point_numbers
       (convert_int_to_fixed_point a) (convert_int_to_fixed_point b)
     = if b =? 0 then None
       else Some (Z.quot (a * FIXED_POINT_FACTOR) b).
Proof.
  intros Ha Hb Hab.
  unfold multiply_fixed_point_numbers, divide_fixed_point_numbers,
    fixed_point_quotient, convert_int_to_fixed_point.
  rewrite (wrap32_id (a * FIXED_POINT_FACTOR)) by assumption.
  rewrite (wrap32_id (b * FIXED_POINT_FACTOR)) by assumption.
  unfold in_int32, INT32_MIN, INT32_MAX, FIXED_POINT_FACTOR in *.
  split.
  - replace (a * 16384 * (b * 16384)) with (a * b * 16384 * 16384) by ring.
    rewrite Z.quot_mul by lia. reflexivity.
  - destruct (Z.eqb_spec b 0) as [->|Hb0]; [reflexivity|].
    destruct (Z.eqb_spec (b * 16384) 0) as [E|_]; [lia|].
    rewrite Z.quot_mul_cancel_r by lia.
    f_equal. apply wrap32_id. unfold in_int32, INT32_MIN, INT32_MAX.
    assert (Hq : Z.abs (Z.quot (a * 16384) b) <= Z.abs (a * 16384)).
    { rewrite <- Z.quot_abs by lia.
      etransitivity;
        [apply (Z.quot_le_compat_l _ 1); lia | rewrite Z.quot_1_r; lia]. }
    destruct (Z.eq_dec (a * 16384) (- 2 ^ 31)) as [E|E]; [|lia].
    assert (Hb1 : b = 1) by nia. subst b. rewrite Z.quot_1_r. lia.
Qed.

Lemma fixed_point_arithmetic_on_integers_witness :
  in_int32 (59 * FIXED_POINT_FACTOR)
  /\ in_int32 (60 * FIXED_POINT_FACTOR)
  /\ in_int32 (59 * 60 * FIXED_POINT_FACTOR)
  /\ multiply_fixed_point_numbers
       (convert_int_to_fixed_point 59) (convert_int_to_fixed_point 60)
     = convert_int_to_fixed_point (59 * 60)
  /\ divide_fixed_point_numbers
       (convert_int_to_fixed_point 59) (convert_int_to_fixed_point 60)
     = Some 16110.
Proof.
  assert (H1 : in_int32 (59 * FIXED_POINT_FACTOR))
    by (unfold in_int32, INT32_MIN, INT32_MAX, FIXED_POINT_FACTOR; lia).
  assert (H2 : in_int32 (60 * FIXED_POINT_FACTOR))
    by (unfold in_int32, INT32_MIN, INT32_MAX, FIXED_POINT_FACTOR; lia).
  assert (H3 : in_int32 (59 * 60 * FIXED_POINT_FACTOR))
    by (unfold in_int32, INT32_MIN, INT32_MAX, FIXED_POINT_FACTOR; lia).
  split; [exact H1|]. split; [exact H2|]. split; [exact H3|].
  exact (fixed_point_arithmetic_on_integers 59 60 H1 H2 H3).
Defined.

(** ** The header with FRACTION_BITS 15 *)

Lemma shiftl_15 (n : Z) : Z.shiftl n FixedPoint15.FRACTION_BITS = n * 32768.
Proof.
  unfold FixedPoint15.FRACTION_BITS. rewrite Z.shiftl_mul_pow2 by lia.
  reflexivity.
Qed.

Lemma shiftr_15 (x : Z) : Z.shiftr x FixedPoint15.FRACTION_BITS = x / 32768.
Proof.
  unfold FixedPoint15.FRACTION_BITS. rewrite Z.shiftr_div_pow2 by lia.
  reflexivity.
Qed.

(** X5: with the 15-bit header, for n with n * 32768 in the 32-bit range,
    converting n to fixed point and back gives n when rounding "toward
    zero" and, for n >= 0, when rounding to nearest; for a negative n
    (other than -65536, where the subtraction wraps) rounding to nearest
    gives n - 1. *)
Theorem fixed_point_15_round_trip (n : Z) :
  in_int32 (n * 32768) ->
  FixedPoint15.convert_fixed_point_to_int_round_towards_zero
    (FixedPoint15.convert_int_to_fixed_point n) = n
  /\ (0 <= n ->
      FixedPoint15.convert_fixed_point_to_int_round_to_nearest
        (FixedPoint15.convert_int_to_fixed_point n) = n)
  /\ (-65536 < n < 0 ->
      FixedPoint15.convert_fixed_point_to_int_round_to_nearest
        (FixedPoint15.convert_int_to_fixed_point n) = n - 1).
Proof.
  intros Hn.
  unfold FixedPoint15.convert_fixed_point_to_int_round_towards_zero,
    FixedPoint15.convert_fixed_point_to_int_round_to_nearest,
    FixedPoint15.convert_int_to_fixed_point.
  change (wrap32 (Z.shiftl 1 (FixedPoint15.FRACTION_BITS - 1))) with 16384.
  rewrite shiftl_15, wrap32_id by assumption. rewrite !shiftr_15.
  unfold in_int32, INT32_MIN, INT32_MAX in *.
  split; [apply Z.div_mul; lia|]. split.
  - intros H0. destruct (Z.leb_spec 0 (n * 32768)); [|lia].
    rewrite wrap32_id by (unfold in_int32, INT32_MIN, INT32_MAX; lia).
    symmetry. apply (Z.div_unique _ _ _ 16384); lia.
  - intros H0. destruct (Z.leb_spec 0 (n * 32768)); [lia|].
    rewrite wrap32_id by (unfold in_int32, INT32_MIN, INT32_MAX; lia).
    symmetry. apply (Z.div_unique _ _ _ 16384); lia.
Qed.

Lemma fixed_point_15_round_trip_witness :
  in_int32 (-3 * 32768)
  /\ FixedPoint15.convert_fixed_point_to_int_round_towards_zero
       (FixedPoint15.convert_int_to_fixed_point (-3)) = -3
  /\ (0 <= -3 ->
      FixedPoint15.convert_fixed_point_to_int_round_to_nearest
        (FixedPoint15.convert_int_to_fixed_point (-3)) = -3)
  /\ (-65536 < -3 < 0 ->
      FixedPoint15.convert_fixed_point_to_int_round_to_nearest
        (FixedPoint15.convert_int_to_fixed_point (-3)) = -3 - 1).
Proof.
  assert (H : in_int32 (-3 * 32768))
    by (unfold in_int32, INT32_MIN, INT32_MAX; lia).
  split; [exact H | exact (fixed_point_15_round_trip (-3) H)].
Defined.

(** X6: with the 15-bit header the conversions to an integer shift right,
    which rounds toward minus infinity.  For a negative [x] that is not a
    multiple of 32768 "round toward zero" gives one less than the
    truncated quotient that the 14-bit header computes with [/]; and
    "round to nearest" gives -1 for every [x] from -16384 up to -1, values
    whose nearest integer is 0. *)
Theorem fixed_point_15_rounds_down (x : Z) :
  x < 0 ->
  (Z.rem x 32768 <> 0 ->
   FixedPoint15.convert_fixed_point_to_int_round_towards_zero x
   = Z.quot x 32768 - 1)
  /\ (-16384 <= x ->
      FixedPoint15.convert_fixed_point_to_int_round_to_nearest x = -1).
Proof.
  intros Hx.
  unfold FixedPoint15.convert_fixed_point_to_int_round_towards_zero,
    FixedPoint15.convert_fixed_point_to_int_round_to_nearest.
  change (wrap32 (Z.shiftl 1 (FixedPoint15.FRACTION_BITS - 1))) with 16384.
  rewrite !shiftr_15. split.
  - intros Hr.
    pose proof (Z.quot_rem' x 32768) as E.
    pose proof (Z.rem_bound_pos (- x) 32768 ltac:(lia) ltac:(lia)) as B.
    rewrite Z.rem_opp_l in B by lia.
    symmetry. apply (Z.div_unique _ _ _ (Z.rem x 32768 + 32768)); lia.
  - intros Hlo. destruct (Z.leb_spec 0 x); [lia|].
    rewrite wrap32_id by (unfold in_int32, INT32_MIN, INT32_MAX; lia).
    symmetry. apply (Z.div_unique _ _ _ (x - 16384 + 32768)); lia.
Qed.

Lemma fixed_point_15_rounds_down_witness :
  -1 < 0
  /\ (Z.rem (-1) 32768 <> 0 ->
      FixedPoint15.convert_fixed_point_to_int_round_towards_zero (-1)
      = Z.quot (-1) 32768 - 1)
  /\ (-16384 <= -1 ->
      FixedPoint15.convert_fixed_point_to_int_round_to_nearest (-1) = -1)
  /\ FixedPoint.convert_fixed_point_to_int_round_towards_zero (-1) = 0.
Proof.
  assert (H : -1 < 0) by lia.
  split; [exact H|].
  destruct (fixed_point_15_rounds_down (-1) H) as [A B].
  split; [exact A|]. split; [exact B | reflexivity].
Defined.

(** X7: with the 15-bit header it is
    [multiply_fixed_point_numbers_by_int] that shifts the product back:
    on two fixed-point numbers that stand for the integers a and b it
    gives the fixed-point number for a * b, and on a fixed-point number
    and the integer b it gives the plain integer a * b; while
    [multiply_fixed_point_numbers] leaves the product of the two
    representations as it is, 32768 times the fixed-point number for
    a * b. *)
Theorem fixed_point_15_products (a b : Z) :
  in_int32 (a * 32768) ->
  in_int32 (b * 32768) ->
  in_int32 (a * b * 32768) ->
  FixedPoint15.multiply_fixed_point_numbers_by_int
    (FixedPoint15.convert_int_to_fixed_point a)
    (FixedPoint15.convert_int_to_fixed_point b)
  = FixedPoint15.convert_int_to_fixed_point (a * b)
  /\ FixedPoint15.multiply_fixed_point_numbers_by_int
       (FixedPoint15.convert_int_to_fixed_point a) b = a * b
  /\ FixedPoint15.multiply_fixed_point_numbers
       (FixedPoint15.convert_int_to_fixed_point a)
       (FixedPoint15.convert_int_to_fixed_point b)
     = wrap32 (a * b * 32768 * 32768).
Proof.
  intros Ha Hb Hab.
  unfold FixedPoint15.multiply_fixed_point_numbers_by_int,
    FixedPoint15.multiply_fixed_point_numbers,
    FixedPoint15.convert_int_to_fixed_point.
  rewrite !shiftl_15, !shiftr_15.
  rewrite (wrap32_id (a * 32768)), (wrap32_id (b * 32768)) by assumption.
  split; [|split].
  - f_equal.
    replace (a * 32768 * (b * 32768)) with (a * b * 32768 * 32768) by ring.
    apply Z.div_mul. lia.
  - replace (a * 32768 * b) with (a * b * 32768) by ring.
    rewrite Z.div_mul by lia. apply wrap32_id.
    unfold in_int32, INT32_MIN, INT32_MAX in *. lia.
  - f_equal. ring.
Qed.

Lemma fixed_point_15_products_witness :
  in_int32 (1 * 32768)
  /\ FixedPoint15.multiply_fixed_point_numbers_by_int
       (FixedPoint15.convert_int_to_fixed_point 1)
       (FixedPoint15.convert_int_to_fixed_point 1)
     = FixedPoint15.convert_int_to_fixed_point 1
  /\ FixedPoint15.multiply_fixed_point_numbers
       (FixedPoint15.convert_int_to_fixed_point 1)
       (FixedPoint15.convert_int_to_fixed_point 1)
     = FixedPoint15.convert_int_to_fixed_point 32768.
Proof.
  assert (H : in_int32 (1 * 32768))
    by (unfold in_int32, INT32_MIN, INT32_MAX; lia).
  split; [exact H|].
  destruct (fixed_point_15_products 1 1 H H H) as (A & _ & C).
  split; [exact A | exact C].
Defined.

(** ** Busy waiting and the real-time sleeps *)

Lemma busy_wait_loop_spins (fuel : nat) :
  forall loops barriers,
    in_int64 loops ->
    (Z.to_nat loops < fuel)%nat ->
    busy_wait_loop fuel loops barriers = Some (barriers + Z.max 0 loops).
Proof.
  induction fuel as [|fuel IH]; intros loops barriers Hr Hf; [lia|].
  simpl. destruct (Z.ltb_spec 0 loops) as [Hpos|Hneg].
  - assert (Hr' : in_int64 (loops - 1))
      by (unfold in_int64, INT64_MIN, INT64_MAX in *; lia).
    rewrite wrap64_id by exact Hr'.
    rewrite IH by (try exact Hr'; lia). f_equal. lia.
  - f_equal. lia.
Qed.

(** X8: [busy_wait (loops)] ends after executing [barrier ()] exactly
    [loops] times when [loops] is positive and not at all otherwise, and
    more fuel for the loop changes nothing. *)
Theorem busy_wait_spins (loops : Z) (fuel : nat) :
  in_int64 loops ->
  (Z.to_nat loops < fuel)%nat ->
  busy_wait loops = Some (Z.max 0 loops)
  /\ busy_wait_loop fuel loops 0 = Some (Z.max 0 loops).
Proof.
  intros Hr Hf. unfold busy_wait.
  rewrite !busy_wait_loop_spins by (try exact Hr; lia). split; reflexivity.
Qed.

Lemma busy_wait_spins_witness :
  in_int64 5 /\ (Z.to_nat 5 < 9)%nat
  /\ busy_wait 5 = Some 5
  /\ busy_wait_loop 9 5 0 = Some 5.
Proof.
  assert (H : in_int64 5)
    by (unfold in_int64, INT64_MIN, INT64_MAX; lia).
  assert (Hf : (Z.to_nat 5 < 9)%nat) by (simpl; lia).
  split; [exact H|]. split; [exact Hf|].
  exact (busy_wait_spins 5 9 H Hf).
Defined.

Lemma wrap64_range (z : Z) : in_int64 (wrap64 z).
Proof.
  unfold in_int64, INT64_MIN, INT64_MAX, wrap64, wrap.
  pose proof (Z.mod_pos_bound (z + 2 ^ (64 - 1)) (2 ^ 64) ltac:(lia)).
  change (2 ^ 64) with (2 * 2 ^ (64 - 1)) in *. lia.
Qed.

Lemma busy_wait_defined (loops : Z) :
  in_int64 loops -> busy_wait loops = Some (Z.max 0 loops).
Proof.
  intros H. unfold busy_wait. rewrite busy_wait_loop_spins by (auto; lia).
  reflexivity.
Qed.

(** X9: [real_time_delay] comes to an end exactly when [denom] is a
    multiple of 1000 other than 0: otherwise its assertion fails or its
    division traps.  So [timer_mdelay], [timer_udelay] and [timer_ndelay]
    come to an end for every argument, after a number of spins that is
    not negative. *)
Theorem real_time_delay_defined (F lpt num denom : Z) :
  (real_time_delay F lpt num denom <> None
   <-> Z.rem denom 1000 = 0 /\ denom <> 0)
  /\ (exists spins, timer_mdelay F lpt num = Some spins /\ 0 <= spins)
  /\ (exists spins, timer_udelay F lpt num = Some spins /\ 0 <= spins)
  /\ (exists spins, timer_ndelay F lpt num = Some spins /\ 0 <= spins).
Proof.
  assert (Hok : forall d, Z.rem d 1000 = 0 -> d <> 0 ->
            exists spins, real_time_delay F lpt num d = Some spins
                          /\ 0 <= spins).
  { intros d Hrem Hd. unfold real_time_delay.
    rewrite Hrem. cbn [Z.eqb ASSERT bind].
    assert (Hq : Z.quot d 1000 <> 0).
    { intros Hq. pose proof (Z.quot_rem' d 1000). lia. }
    apply Z.eqb_neq in Hq. rewrite Hq. cbn [negb ASSERT bind].
    rewrite busy_wait_defined by apply wrap64_range.
    eexists. split; [reflexivity | lia]. }
  split; [split|].
  - intros H. unfold real_time_delay in H.
    destruct (Z.eqb_spec (Z.rem denom 1000) 0) as [Hrem|Hrem];
      [|exfalso; apply H; reflexivity].
    split; [exact Hrem|]. intros ->. apply H. reflexivity.
  - intros [Hrem Hd]. destruct (Hok denom Hrem Hd) as (spins & -> & _).
    discriminate.
  - split; [|split]; apply Hok; try reflexivity; discriminate.
Qed.

(** X10: a delay of less than one tick spins less than [loops_per_tick]
    times.  For a [denom] that is a positive multiple of 1000, a [num]
    from 0 with num * TIMER_FREQ < denom, and TIMER_FREQ from 1 to 1000 as
    timer.c demands, [real_time_delay] spins at most
    loops_per_tick * num * TIMER_FREQ / denom times. *)
Theorem real_time_delay_within_a_tick (F lpt num denom : Z) :
  1 <= F <= 1000 ->
  0 <= lpt < 2 ^ 32 ->
  0 <= num ->
  0 < denom <= INT32_MAX ->
  Z.rem denom 1000 = 0 ->
  num * F < denom ->
  exists spins,
    real_time_delay F lpt num denom = Some spins
    /\ 0 <= spins
    /\ spins * denom <= lpt * num * F
    /\ (0 < lpt -> spins < lpt).
Proof.
  intros HF Hlpt Hnum Hden Hrem Hshort.
  unfold INT32_MAX in Hden.
  assert (Hnum' : num < 2 ^ 31) by nia.
  pose proof (Z.quot_rem' denom 1000) as Ed. rewrite Hrem in Ed.
  set (d := Z.quot denom 1000) in *.
  assert (Hd : 0 < d) by lia.
  unfold real_time_delay. rewrite Hrem. cbn [Z.eqb ASSERT bind].
  fold d. destruct (Z.eqb_spec d 0) as [|_]; [lia|]. cbn [negb ASSERT bind].
  assert (Hp : 0 <= lpt * num < 2 ^ 63) by nia.
  rewrite (wrap64_id (lpt * num))
    by (unfold in_int64, INT64_MIN, INT64_MAX; lia).
  rewrite (Z.quot_div_nonneg (lpt * num) 1000) by lia.
  set (q1 := lpt * num / 1000).
  assert (Hq1 : 0 <= q1 /\ 1000 * q1 <= lpt * num).
  { subst q1. split; [apply Z.div_pos; lia|].
    apply Z.mul_div_le. lia. }
  assert (Hq1F : 0 <= q1 * F < 2 ^ 63) by nia.
  rewrite (wrap64_id (q1 * F))
    by (unfold in_int64, INT64_MIN, INT64_MAX; lia).
  rewrite (Z.quot_div_nonneg (q1 * F) d) by lia.
  set (q2 := q1 * F / d).
  assert (Hq2 : 0 <= q2 /\ d * q2 <= q1 * F).
  { subst q2. split; [apply Z.div_pos; lia|].
    apply Z.mul_div_le. lia. }
  assert (Hq2' : q2 < 2 ^ 63) by nia.
  rewrite (wrap64_id q2) by (unfold in_int64, INT64_MIN, INT64_MAX; lia).
  rewrite busy_wait_defined
    by (unfold in_int64, INT64_MIN, INT64_MAX; lia).
  exists (Z.max 0 q2). rewrite Z.max_r by lia.
  split; [reflexivity|]. split; [lia|]. split; nia.
Qed.

Lemma real_time_delay_within_a_tick_witness :
  exists spins,
    real_time_delay 100 4096 9 1000 = Some spins
    /\ 0 <= spins
    /\ spins * 1000 <= 4096 * 9 * 100
    /\ (0 < 4096 -> spins < 4096).
Proof.
  apply (real_time_delay_within_a_tick 100 4096 9 1000);
    unfold INT32_MAX; try lia. reflexivity.
Defined.




(** X12: a real-time sleep of one tick or more sleeps on the sleep list
    for the number of whole ticks in it: for denom <= num * TIMER_FREQ,
    [real_time_sleep] is [timer_sleep (num * TIMER_FREQ / denom)], with a
    positive argument, does not spin, and leaves a record for the caller
    with wake tick s + num * TIMER_FREQ / denom. *)
Theorem real_time_sleep_long_sleeps (F lpt num denom : Z) (st : kernel) :
  may_sleep st ->
  0 < denom ->
  in_int64 (num * F) ->
  denom <= num * F ->
  in_int64 (ticks st + Z.quot (num * F) denom) ->
  exists st',
    real_time_sleep F lpt num denom st = Some (st', 0)
    /\ 0 < Z.quot (num * F) denom
    /\ timer_sleep (Z.quot (num * F) denom) st = Some st'
    /\ In (mk_sleeping_thread (thread_current st)
             (ticks st + Z.quot (num * F) denom))
          (sleeping_threads st').
Proof.
  intros Hmay Hden Hfit Hlong Hwake. unfold real_time_sleep.
  destruct (Z.eqb_spec denom 0) as [|_]; [lia|]. cbn [negb ASSERT bind].
  pose proof Hmay as (Hon & _). unfold intr_get_level. rewrite Hon.
  cbn [intr_level_eqb ASSERT bind].
  rewrite (wrap64_id (num * F)) by assumption.
  assert (Hq : 0 < Z.quot (num * F) denom <= num * F).
  { rewrite Z.quot_div_nonneg by lia. split.
    - apply Z.div_str_pos. lia.
    - apply Z.div_le_upper_bound; nia. }
  rewrite wrap64_id
    by (unfold in_int64, INT64_MIN, INT64_MAX in *; lia).
  destruct (Z.ltb_spec 0 (Z.quot (num * F) denom)) as [_|]; [|lia].
  destruct (timer_sleep_total (Z.quot (num * F) denom) st Hmay) as [st' Hst'].
  rewrite Hst'. cbn [bind]. exists st'.
  split; [reflexivity|]. split; [apply Hq|]. split; [reflexivity|].
  apply timer_sleep_sleeping_threads in Hst'. destruct Hst' as [-> _].
  apply list_insert_ordered_In. left. unfold sleep_record.
  rewrite wrap64_id by assumption. reflexivity.
Qed.

Lemma real_time_sleep_long_sleeps_witness :
  may_sleep boot
  /\ exists st',
       timer_msleep 100 4096 2509 boot = Some (st', 0)
       /\ 0 < Z.quot (2509 * 100) 1000
       /\ timer_sleep (Z.quot (2509 * 100) 1000) boot = Some st'
       /\ In (mk_sleeping_thread (thread_current boot)
                (ticks boot + Z.quot (2509 * 100) 1000))
             (sleeping_threads st').
Proof.
  assert (Hmay : may_sleep boot).
  { split; [reflexivity|]. split; [reflexivity|]. simpl. discriminate. }
  split; [exact Hmay|].
  apply (real_time_sleep_long_sleeps 100 4096 2509 1000 boot Hmay).
  - lia.
  - unfold in_int64, INT64_MIN, INT64_MAX. lia.
  - lia.
  - change (ticks boot + Z.quot (2509 * 100) 1000) with 250.
    unfold in_int64, INT64_MIN, INT64_MAX. lia.
Defined.

(** ** Elapsed time *)

Lemma timer_ticks_spec (st : kernel) : timer_ticks st = (ticks st, st).
Proof. destruct st; reflexivity. Qed.

Lemma step_ticks (F : Z) (ev : event) (st st' : kernel) :
  step F ev st = Some st' ->
  ticks st' = match ev with
              | Tick => wrap64 (ticks st + 1)
              | _ => ticks st
              end.
Proof.
  intros H. destruct ev; simpl in H.
  - assert_inv H. bind_inv H. injection H as <-.
    apply timer_interrupt_Some in E0.
    destruct E0 as (_ & _ & _ & Htk & _). exact Htk.
  - apply timer_sleep_sleeping_threads in H. apply H.
  - apply thread_yield_Some in H. apply H.
Qed.

Lemma count_ticks_nonneg (evs : list event) : 0 <= count_ticks evs.
Proof.
  induction evs as [|ev evs IH];
    [cbn [count_ticks]; lia | destruct ev; cbn [count_ticks]; lia].
Qed.

Lemma trace_ticks (F : Z) (evs : list event) :
  forall st sts,
    in_int64 (ticks st) ->
    ticks st + count_ticks evs <= INT64_MAX ->
    trace F evs st = Some sts ->
    ticks (last sts st) = ticks st + count_ticks evs.
Proof.
  induction evs as [|ev evs IH]; intros st sts Hr Hmax H; simpl in H.
  - injection H as <-. cbn [last count_ticks]. lia.
  - bind_inv H. bind_inv H. injection H as <-.
    rewrite last_cons_default.
    pose proof (count_ticks_nonneg evs) as Hc.
    pose proof (step_ticks F ev st k E) as Hk.
    unfold in_int64, INT64_MIN, INT64_MAX in *.
    destruct ev; cbn [count_ticks] in Hmax |- *.
    + rewrite wrap64_id in Hk
        by (unfold in_int64, INT64_MIN, INT64_MAX; lia).
      rewrite (IH k l) by (try assumption; lia). lia.
    + rewrite (IH k l) by (try assumption; lia). lia.
    + rewrite (IH k l) by (try assumption; lia). lia.
Qed.

(** X13: [timer_elapsed] counts the timer interrupts: called with a value
    that [timer_ticks] returned earlier, after an execution in which the
    tick counter, not negative at the start, did not overflow, it returns the number of timer
    interrupts in between, whatever else happened, and like [timer_ticks]
    it leaves the state, its interrupt level included, as it found it. *)
Theorem timer_elapsed_counts_interrupts (F : Z) (evs : list event)
  (st : kernel) (sts : list kernel) :
  0 <= ticks st ->
  ticks st + count_ticks evs <= INT64_MAX ->
  trace F evs st = Some sts ->
  timer_ticks st = (ticks st, st)
  /\ timer_elapsed (fst (timer_ticks st)) (last sts st)
     = (count_ticks evs, last sts st).
Proof.
  intros H0 Hmax H. split; [apply timer_ticks_spec|].
  pose proof (count_ticks_nonneg evs).
  assert (Hr : in_int64 (ticks st))
    by (unfold in_int64, INT64_MIN, INT64_MAX in *; lia).
  unfold timer_elapsed. rewrite !timer_ticks_spec. cbn [fst].
  rewrite (trace_ticks F evs st sts Hr Hmax H).
  replace (ticks st + count_ticks evs - ticks st) with (count_ticks evs)
    by ring.
  rewrite wrap64_id
    by (unfold in_int64, INT64_MIN, INT64_MAX in *; lia).
  reflexivity.
Qed.

Lemma timer_elapsed_counts_interrupts_witness :
  exists sts,
    trace 100 [Tick; Sleep 1; Tick; Yield; Tick] boot = Some sts
    /\ timer_ticks boot = (ticks boot, boot)
    /\ timer_elapsed (fst (timer_ticks boot)) (last sts boot)
       = (3, last sts boot).
Proof.
  eexists. split; [vm_compute; reflexivity|].
  apply (timer_elapsed_counts_interrupts 100 [Tick; Sleep 1; Tick; Yield; Tick]
           boot).
  - simpl. lia.
  - unfold INT64_MAX. simpl. lia.
  - vm_compute; reflexivity.
Defined.

(** ** Sleepers wake on time *)

Lemma step_wake_sorted (F : Z) (ev : event) (x x' : kernel) :
  step F ev x = Some x' ->
  wake_sorted (sleeping_threads x) -> wake_sorted (sleeping_threads x').
Proof.
  intros H Hs. destruct ev; simpl in H.
  - assert_inv H. bind_inv H. injection H as <-. simpl.
    apply timer_interrupt_Some in E0.
    destruct E0 as (_ & woken & _ & _ & Hw & _). simpl in Hw.
    rewrite Hw in Hs. eapply wake_sorted_app_inv. exact Hs.
  - apply timer_sleep_sleeping_threads in H. destruct H as [-> _].
    apply wake_sorted_insert. exact Hs.
  - apply thread_yield_Some in H. destruct H as [-> _]. exact Hs.
Qed.

Lemma step_keeps_record (F : Z) (ev : event) (x x' : kernel)
  (r : sleeping_thread) :
  step F ev x = Some x' ->
  In r (sleeping_threads x) ->
  status_of x' (current_thread r) = Some THREAD_BLOCKED ->
  In r (sleeping_threads x').
Proof.
  intros H Hin Hb. destruct ev; simpl in H.
  - assert_inv H. bind_inv H. injection H as <-. simpl.
    apply timer_interrupt_Some in E0.
    destruct E0 as (_ & woken & _ & _ & Hw & _ & _ & _ & _ & Hwst & _).
    simpl in Hw. rewrite Hw, in_app_iff in Hin.
    destruct Hin as [Hin|Hin]; [|exact Hin].
    destruct (Hwst r Hin) as [_ Hr].
    change (status_of k (current_thread r) = Some THREAD_BLOCKED) in Hb.
    congruence.
  - apply timer_sleep_sleeping_threads in H. destruct H as [-> _].
    apply list_insert_ordered_In. auto.
  - apply thread_yield_Some in H. destruct H as [-> _]. exact Hin.
Qed.

Lemma trace_keeps_record (F : Z) (r : sleeping_thread) (evs : list event) :
  forall x sts,
    trace F evs x = Some sts ->
    In r (sleeping_threads x) ->
    wake_sorted (sleeping_threads x) ->
    Forall (fun y => status_of y (current_thread r) = Some THREAD_BLOCKED)
      sts ->
    In r (sleeping_threads (last sts x))
    /\ wake_sorted (sleeping_threads (last sts x)).
Proof.
  induction evs as [|ev evs IH]; intros x sts H Hin Hs Hb; simpl in H.
  - injection H as <-. simpl. auto.
  - bind_inv H. bind_inv H. injection H as <-.
    inversion Hb; subst. rewrite last_cons_default.
    apply IH; [exact E0 | | | assumption].
    + eapply step_keeps_record; eassumption.
    + eapply step_wake_sorted; eassumption.
Qed.

(** X14: a sleeper does not oversleep.  After [timer_sleep (n)] at tick s
    (s + n representable, the sleep list ordered), whatever happens while
    the caller is BLOCKED, the timer interrupt that brings the tick counter
    to s + n or beyond takes the caller's record out of the sleep list and
    makes the caller READY. *)
Theorem sleeper_wakes_on_time (F : Z) (st : kernel) (n : Z) (st1 : kernel)
  (evs : list event) (sts : list kernel) (st2 : kernel) :
  in_int64 (ticks st + n) ->
  wake_sorted (sleeping_threads st) ->
  timer_sleep n st = Some st1 ->
  trace F evs st1 = Some sts ->
  Forall (fun x => status_of x (thread_current st) = Some THREAD_BLOCKED) sts ->
  step F Tick (last sts st1) = Some st2 ->
  ticks st + n <= ticks st2 ->
  status_of st2 (thread_current st) = Some THREAD_READY
  /\ ~ In (sleep_record n st) (sleeping_threads st2).
Proof.
  intros Hfit Hs Hsleep Htr Hblk Hstep Hdue.
  destruct (timer_sleep_sleeping_threads n st st1 Hsleep) as [Hlist _].
  assert (Hin1 : In (sleep_record n st) (sleeping_threads st1))
    by (rewrite Hlist; apply list_insert_ordered_In; auto).
  assert (Hs1 : wake_sorted (sleeping_threads st1))
    by (rewrite Hlist; apply wake_sorted_insert; exact Hs).
  destruct (trace_keeps_record F (sleep_record n st) evs st1 sts Htr Hin1 Hs1
              Hblk) as [Hin Hsorted].
  set (x := last sts st1) in *.
  simpl in Hstep. assert_inv Hstep. bind_inv Hstep. injection Hstep as <-.
  apply timer_interrupt_Some in E0.
  destruct E0 as (_ & woken & _ & _ & Hw & _ & Hhd & _ & _ & Hwst & _).
  simpl in Hw, Hwst, Hdue |- *.
  assert (Hrest : Forall (fun r => ticks k < ticks_till_release r)
                    (sleeping_threads k)).
  { apply wake_sorted_tail_future; [|exact Hhd].
    rewrite Hw in Hsorted. eapply wake_sorted_app_inv; exact Hsorted. }
  assert (Hwake : ticks_till_release (sleep_record n st) = ticks st + n)
    by (simpl; apply wrap64_id; assumption).
  assert (Hnot : ~ In (sleep_record n st) (sleeping_threads k)).
  { intros Hk. rewrite Forall_forall in Hrest. specialize (Hrest _ Hk). lia. }
  split; [|exact Hnot].
  rewrite Hw, in_app_iff in Hin. destruct Hin as [Hin|Hin]; [|tauto].
  apply (Hwst _ Hin).
Qed.

Lemma sleeper_wakes_on_time_witness :
  exists sts st2,
    trace 100 [Tick; Sleep 5] asleep = Some sts
    /\ step 100 Tick (last sts asleep) = Some st2
    /\ ticks boot + 2 <= ticks st2
    /\ status_of st2 (thread_current boot) = Some THREAD_READY
    /\ ~ In (sleep_record 2 boot) (sleeping_threads st2).
Proof.
  eexists. eexists.
  split; [vm_compute; reflexivity|].
  split; [vm_compute; reflexivity|].
  split; [vm_compute; discriminate|].
  eapply (sleeper_wakes_on_time 100 boot 2 asleep [Tick; Sleep 5]).
  - unfold in_int64, INT64_MIN, INT64_MAX. simpl. lia.
  - constructor.
  - vm_compute; reflexivity.
  - vm_compute; reflexivity.
  - repeat constructor.
  - vm_compute; reflexivity.
  - vm_compute. discriminate.
Defined.

(** X15: the timer interrupt handler neither switches threads nor blocks
    one: it leaves the running thread, the idle thread and the interrupt
    level as they are, takes no thread out of the ready queue, keeps the
    threads of [all_list] (same identities, in the same order), and the
    only change of status it makes is from BLOCKED to READY. *)
Theorem timer_interrupt_never_preempts (F : Z) (st st' : kernel) :
  timer_interrupt F st = Some st' ->
  thread_current st' = thread_current st
  /\ get_idle_thread st' = get_idle_thread st
  /\ intr_get_level st' = intr_get_level st
  /\ (forall t, In t (ready_list st) -> In t (ready_list st'))
  /\ map tid (all_list st') = map tid (all_list st)
  /\ (forall t, status_of st' t = status_of st t
                \/ status_of st t = Some THREAD_BLOCKED
                   /\ status_of st' t = Some THREAD_READY).
Proof.
  intros H. pose proof (timer_interrupt_threads F st st' H) as (_ & _ & _ & Hall).
  apply timer_interrupt_Some in H.
  destruct H as (sm & woken & Hacc & _ & _ & _ & _ & Hg & _ & Hwst & Hoth & Hrdy).
  apply timer_interrupt_accounting_frame in Hacc.
  destruct Hacc as (_ & _ & _ & Hrun & Hidle & Hlev & _).
  destruct Hg as (_ & _ & Hrun' & Hidle' & Hlev' & _).
  unfold thread_current, get_idle_thread, intr_get_level.
  split; [congruence|]. split; [congruence|]. split; [congruence|].
  split; [intros t Ht; apply Hrdy; auto|]. split.
  - clear - Hall. induction Hall as [|t t' l l' Ht _ IH]; [reflexivity|].
    simpl. rewrite IH. f_equal.
    destruct Ht as (Htid & _).
    destruct (accounted_thread_fields F st (LOAD_AVG st')
                (calculate_priority st') t) as (A & _).
    congruence.
  - intros t.
    destruct (in_dec Z.eq_dec t (map current_thread woken)) as [Hin|Hout].
    + right. apply in_map_iff in Hin. destruct Hin as (r & <- & Hin).
      apply (Hwst r Hin).
    + left. apply Hoth. exact Hout.
Qed.

Lemma timer_interrupt_never_preempts_witness :
  exists st',
    timer_interrupt 100 (set_ticks 1 asleep) = Some st'
    /\ thread_current st' = 2
    /\ ready_list st' = [1]
    /\ (forall t, status_of st' t = status_of (set_ticks 1 asleep) t
                  \/ status_of (set_ticks 1 asleep) t = Some THREAD_BLOCKED
                     /\ status_of st' t = Some THREAD_READY).
Proof.
  eexists. split; [vm_compute; reflexivity|].
  split; [reflexivity|]. split; [reflexivity|].
  apply (timer_interrupt_never_preempts 100 (set_ticks 1 asleep)).
  vm_compute; reflexivity.
Defined.

(** X16: the scheduler invariants are kept by every step of an execution
    in which the idle thread does not call [timer_sleep]: after a timer
    interrupt, a [timer_sleep] or a yield, the running thread is RUNNING,
    the ready queue holds READY threads, each once, every record of the
    sleep list belongs to a BLOCKED thread, no thread has two records, and
    the idle thread has none. *)
Theorem scheduler_invariants_kept (F : Z) (ev : event) (st st' : kernel) :
  scheduler_wf st -> not_idle_sleep ev st -> step F ev st = Some st' ->
  scheduler_wf st'.
Proof. apply step_scheduler_wf. Qed.

Lemma scheduler_invariants_kept_witness :
  scheduler_wf boot /\ not_idle_sleep (Sleep 2) boot
  /\ step 100 (Sleep 2) boot = Some asleep
  /\ scheduler_wf asleep.
Proof.
  assert (Hni : not_idle_sleep (Sleep 2) boot) by (simpl; discriminate).
  assert (Hstep : step 100 (Sleep 2) boot = Some asleep)
    by (vm_compute; reflexivity).
  split; [exact boot_scheduler_wf|]. split; [exact Hni|].
  split; [exact Hstep|].
  exact (scheduler_invariants_kept 100 (Sleep 2) boot asleep
           boot_scheduler_wf Hni Hstep).
Defined.

(** X17: what [timer_sleep] does to the sleep list is to add one record:
    the list after the call has the record of the caller and the records
    it had before, each as often as before. *)
Theorem timer_sleep_adds_one_record (n : Z) (st st' : kernel) :
  timer_sleep n st = Some st' ->
  Permutation (sleep_record n st :: sleeping_threads st)
    (sleeping_threads st')
  /\ length (sleeping_threads st') = S (length (sleeping_threads st)).
Proof.
  intros H. apply timer_sleep_sleeping_threads in H. destruct H as [-> _].
  destruct (list_insert_ordered_split order_sleeping_threads
              (sleep_record n st) (sleeping_threads st))
    as (before & after & Hl & -> & _).
  rewrite Hl. split; [apply Permutation_middle|].
  rewrite !length_app. simpl. lia.
Qed.

Lemma timer_sleep_adds_one_record_witness :
  exists st',
    timer_sleep 1 asleep = Some st'
    /\ Permutation (sleep_record 1 asleep :: sleeping_threads asleep)
         (sleeping_threads st')
    /\ length (sleeping_threads st') = S (length (sleeping_threads asleep)).
Proof.
  eexists. split; [vm_compute; reflexivity|].
  apply (timer_sleep_adds_one_record 1 asleep). vm_compute; reflexivity.
Defined.

(** ** The range of the load average *)

Lemma filter_length_bound {A : Type} (p : A -> bool) (l : list A) :
  (length (filter p l) <= length l)%nat.
Proof.
  induction l as [|x l IH]; simpl; [lia|]. destruct (p x); simpl; lia.
Qed.

Lemma count_bounds (st : kernel) :
  Z.of_nat (length (all_list st)) <= INT32_MAX ->
  0 <= count_running_or_ready_threads1 st <= Z.of_nat (length (all_list st)).
Proof.
  intros H.
  assert (Hr : 0 <= ready_threads st <= Z.of_nat (length (all_list st))).
  { unfold ready_threads. split; [lia|]. apply Nat2Z.inj_le.
    apply filter_length_bound. }
  rewrite count_is_ready_threads by lia. exact Hr.
Qed.

Lemma next_load_avg_unfold (L c : Z) :
  next_load_avg L c
  = wrap32 (wrap32 (Z.quot (16110 * L) 16384) + wrap32 (273 * c)).
Proof. reflexivity. Qed.

Lemma next_load_avg_bounds (L c N : Z) :
  0 <= L <= N * 16384 -> 0 <= c <= N -> N <= 65535 ->
  0 <= next_load_avg L c <= N * 16384.
Proof.
  intros HL Hc HN. rewrite next_load_avg_unfold.
  assert (Hq : 0 <= Z.quot (16110 * L) 16384 <= 16110 * N).
  { rewrite Z.quot_div_nonneg by lia. split.
    - apply Z.div_pos; lia.
    - apply Z.div_le_upper_bound; lia. }
  rewrite (wrap32_id (Z.quot (16110 * L) 16384))
    by (unfold in_int32, INT32_MIN, INT32_MAX; lia).
  rewrite (wrap32_id (273 * c))
    by (unfold in_int32, INT32_MIN, INT32_MAX; lia).
  rewrite wrap32_id by (unfold in_int32, INT32_MIN, INT32_MAX; lia).
  lia.
Qed.

(** Twice the load average, the denominator and the coefficient of the
    decay of [recent_cpu], for a load average of at most 65535. *)
Lemma decay_coefficient (L : Z) :
  0 <= L <= 65535 * 16384 ->
  multiply_fixed_point_numbers L (convert_int_to_fixed_point 2) = 2 * L
  /\ add_fixed_point_numbers (2 * L) (convert_int_to_fixed_point 1)
     = 2 * L + 16384
  /\ fixed_point_quotient (2 * L) (2 * L + 16384)
     = (2 * L * 16384) / (2 * L + 16384)
  /\ 0 <= (2 * L * 16384) / (2 * L + 16384) < 16384.
Proof.
  intros HL.
  change (convert_int_to_fixed_point 2) with 32768.
  change (convert_int_to_fixed_point 1) with 16384.
  unfold multiply_fixed_point_numbers, add_fixed_point_numbers,
    fixed_point_quotient, FIXED_POINT_FACTOR.
  assert (Hb : 0 <= (2 * L * 16384) / (2 * L + 16384) < 16384).
  { split.
    - apply Z.div_pos; lia.
    - apply Z.div_lt_upper_bound; lia. }
  split.
  { replace (L * 32768) with (2 * L * 16384) by lia.
    rewrite Z.quot_mul by lia.
    apply wrap32_id. unfold in_int32, INT32_MIN, INT32_MAX. lia. }
  split.
  { apply wrap32_id. unfold in_int32, INT32_MIN, INT32_MAX. lia. }
  split; [|exact Hb].
  rewrite Z.quot_div_nonneg by lia.
  apply wrap32_id. unfold in_int32, INT32_MIN, INT32_MAX. lia.
Qed.

Lemma scaled_down (q r : Z) :
  0 <= q < 16384 ->
  (0 <= r -> 0 <= Z.quot (q * r) 16384 <= r)
  /\ (r <= 0 -> r <= Z.quot (q * r) 16384 <= 0).
Proof.
  intros Hq. split; intros Hr.
  - rewrite Z.quot_div_nonneg by nia. split.
    + apply Z.div_pos; nia.
    + apply Z.div_le_upper_bound; nia.
  - replace (q * r) with (- (q * - r)) by lia.
    rewrite Z.quot_opp_l by lia.
    rewrite Z.quot_div_nonneg by nia.
    assert (0 <= (q * - r) / 16384 <= - r).
    { split.
      - apply Z.div_pos; nia.
      - apply Z.div_le_upper_bound; nia. }
    lia.
Qed.

(** X18: the load average stays in its range.  In a state with at most N
    threads, N at most 65535, whose sleepers are BLOCKED and whose load
    average is between 0 and N (in fixed point), the timer interrupt handler
    runs to its end, the division of the decay of [recent_cpu] included, and
    leaves a load average between 0 and N and as many threads as before. *)
Theorem load_avg_stays_in_range (F : Z) (st : kernel) (N : Z) :
  sleepers_blocked st ->
  Z.of_nat (length (all_list st)) <= N -> N <= 65535 ->
  0 <= LOAD_AVG st <= N * FIXED_POINT_FACTOR ->
  exists st',
    timer_interrupt F st = Some st'
    /\ 0 <= LOAD_AVG st' <= N * FIXED_POINT_FACTOR
    /\ length (all_list st') = length (all_list st).
Proof.
  unfold FIXED_POINT_FACTOR. intros Hblk Hlen HN HL.
  assert (Hc : 0 <= count_running_or_ready_threads1 st <= N).
  { pose proof (count_bounds st) as Hc. unfold INT32_MAX in Hc. lia. }
  pose proof (next_load_avg_bounds _ _ N HL Hc HN) as Hnext.
  assert (Hready : interrupt_ready F st).
  { split; [|exact Hblk]. intros _ _.
    set (L' := next_load_avg (LOAD_AVG st)
                 (count_running_or_ready_threads1 st)) in *.
    assert (HL' : 0 <= L' <= 65535 * 16384) by lia.
    destruct (decay_coefficient L' HL') as (-> & -> & _). lia. }
  destruct (timer_interrupt_total F st Hready) as [st' Hst'].
  exists st'. split; [exact Hst'|].
  destruct (timer_interrupt_threads F st st' Hst') as (_ & _ & HLA & Hall).
  split.
  - rewrite HLA. destruct (Z.rem (ticks st') F =? 0); assumption.
  - symmetry. eapply Forall2_length. exact Hall.
Qed.

Lemma load_avg_stays_in_range_witness :
  exists st',
    timer_interrupt 100 loaded = Some st'
    /\ 0 <= LOAD_AVG st' <= 3 * FIXED_POINT_FACTOR
    /\ length (all_list st') = length (all_list loaded).
Proof.
  apply (load_avg_stays_in_range 100 loaded 3).
  - split; simpl; constructor.
  - simpl. lia.
  - lia.
  - unfold FIXED_POINT_FACTOR. simpl. lia.
Defined.

(** X19: the decay of [recent_cpu] shrinks it.  For a load average between
    0 and 65535 (in fixed point) and a [recent_cpu] that fits in 32 bits,
    the body of the loop of [update_recent_cpu_for_all_threads] does not
    trap and sets [recent_cpu] to p + nice (in fixed point), where p lies
    between 0 and the old [recent_cpu], and p = 0 when the load average is
    0; the other fields of the thread are left as they are. *)
Theorem recent_cpu_decay_shrinks (L : Z) (t : thread) :
  0 <= L <= 65535 * FIXED_POINT_FACTOR ->
  in_int32 (recent_cpu t) ->
  exists t' p,
    update_recent_cpu L t = Some t'
    /\ recent_cpu t' = add_int_to_fixed_point_number p (nice_value t)
    /\ (0 <= recent_cpu t -> 0 <= p <= recent_cpu t)
    /\ (recent_cpu t <= 0 -> recent_cpu t <= p <= 0)
    /\ (L = 0 -> p = 0)
    /\ tid t' = tid t /\ status t' = status t
    /\ priority t' = priority t /\ nice_value t' = nice_value t.
Proof.
  unfold FIXED_POINT_FACTOR. intros HL Hr.
  destruct (decay_coefficient L HL) as (Htw & Hden & Hq & Hqb).
  set (q := (2 * L * 16384) / (2 * L + 16384)) in *.
  destruct (scaled_down q (recent_cpu t) Hqb) as [Hpos Hneg].
  exists (set_recent_cpu
            (add_int_to_fixed_point_number (Z.quot (q * recent_cpu t) 16384)
               (nice_value t)) t),
    (Z.quot (q * recent_cpu t) 16384).
  split.
  { unfold update_recent_cpu, divide_fixed_point_numbers.
    rewrite Htw, Hden.
    destruct (Z.eqb_spec (2 * L + 16384) 0) as [H0|_]; [lia|].
    cbn [bind]. rewrite Hq.
    unfold multiply_fixed_point_numbers, FIXED_POINT_FACTOR.
    rewrite (wrap32_id (Z.quot (q * recent_cpu t) 16384)); [reflexivity|].
    unfold in_int32, INT32_MIN, INT32_MAX in *.
    destruct (Z.le_ge_cases 0 (recent_cpu t)) as [H|H];
      [specialize (Hpos H) | specialize (Hneg H)]; lia. }
  split; [destruct t; reflexivity|].
  split; [exact Hpos|]. split; [exact Hneg|].
  split.
  { intros ->. subst q. reflexivity. }
  destruct t; repeat split; reflexivity.
Qed.

Lemma recent_cpu_decay_shrinks_witness :
  exists t' p,
    update_recent_cpu 16384
      (mk_thread 1 THREAD_RUNNING PRI_DEFAULT 0 32768 INTR_ON) = Some t'
    /\ recent_cpu t' = add_int_to_fixed_point_number p 0
    /\ 0 <= p <= 32768.
Proof.
  destruct (recent_cpu_decay_shrinks 16384
              (mk_thread 1 THREAD_RUNNING PRI_DEFAULT 0 32768 INTR_ON))
    as (t' & p & H1 & H2 & H3 & _).
  - unfold FIXED_POINT_FACTOR. lia.
  - unfold in_int32, INT32_MIN, INT32_MAX. simpl. lia.
  - exists t', p. split; [exact H1|]. split; [exact H2|].
    apply H3. simpl. lia.
Defined.

(** ** Units of the sleep functions *)

(** X20: the three sleep functions agree on a duration of one tick or
    more.  For a duration of ms milliseconds that is at least one tick
    (1000 <= ms * TIMER_FREQ), and as long as the nanoseconds times
    TIMER_FREQ fit in 64 bits, [timer_msleep (ms)], [timer_usleep] of the
    same duration in microseconds and [timer_nsleep] of it in nanoseconds
    all do what [timer_sleep (ms * TIMER_FREQ / 1000)] does, without
    spinning. *)
Theorem sleep_units_agree (F lpt ms : Z) (st : kernel) :
  0 < F -> 0 <= ms ->
  1000000 * ms * F <= INT64_MAX ->
  1000 <= ms * F ->
  timer_msleep F lpt ms st
  = (st' <- timer_sleep (Z.quot (ms * F) 1000) st ;; Some (st', 0))
  /\ timer_usleep F lpt (1000 * ms) st = timer_msleep F lpt ms st
  /\ timer_nsleep F lpt (1000000 * ms) st = timer_msleep F lpt ms st.
Proof.
  intros HF Hms Hfit Hlong. unfold INT64_MAX in Hfit.
  assert (Hq : 0 < Z.quot (ms * F) 1000 <= ms * F).
  { rewrite Z.quot_div_nonneg by lia. split.
    - apply Z.div_str_pos. lia.
    - apply Z.div_le_upper_bound; nia. }
  assert (Hsleep : forall num denom k,
             0 < k -> num = k * ms -> denom = k * 1000 -> k <= 1000000 ->
             real_time_sleep F lpt num denom st
             = (st' <- timer_sleep (Z.quot (ms * F) 1000) st ;;
                Some (st', 0))).
  { intros num denom k Hk -> -> Hk'. unfold real_time_sleep.
    destruct (Z.eqb_spec (k * 1000) 0) as [|_]; [lia|].
    cbn [negb ASSERT bind].
    rewrite (wrap64_id (k * ms * F))
      by (unfold in_int64, INT64_MIN, INT64_MAX; nia).
    replace (k * ms * F) with (ms * F * k) by lia.
    replace (k * 1000) with (1000 * k) by lia.
    rewrite Z.quot_mul_cancel_r by lia.
    rewrite wrap64_id by (unfold in_int64, INT64_MIN, INT64_MAX; nia).
    destruct (Z.ltb_spec 0 (Z.quot (ms * F) 1000)) as [_|]; [|lia].
    destruct (intr_level_eqb (intr_get_level st) INTR_ON) eqn:Hlev;
      cbn [ASSERT bind]; [reflexivity|].
    unfold timer_sleep.
    destruct (timer_ticks st) as [start st0] eqn:Ht.
    pose proof (timer_ticks_spec st) as Hspec. rewrite Ht in Hspec.
    injection Hspec as _ ->. rewrite Hlev. reflexivity. }
  unfold timer_msleep, timer_usleep, timer_nsleep.
  rewrite (Hsleep ms 1000 1) by lia.
  rewrite (Hsleep (1000 * ms) (1000 * 1000) 1000) by lia.
  rewrite (Hsleep (1000000 * ms) (1000 * 1000 * 1000) 1000000) by lia.
  auto.
Qed.

Lemma sleep_units_agree_witness :
  timer_msleep 100 1000 20 boot = Some (asleep, 0)
  /\ timer_usleep 100 1000 (1000 * 20) boot = timer_msleep 100 1000 20 boot
  /\ timer_nsleep 100 1000 (1000000 * 20) boot
     = timer_msleep 100 1000 20 boot.
Proof.
  destruct (sleep_units_agree 100 1000 20 boot) as (H1 & H2 & H3).
  - lia.
  - lia.
  - unfold INT64_MAX. lia.
  - lia.
  - split; [|split; assumption].
    rewrite H1. vm_compute. reflexivity.
Defined.
